(** * trafficLight: the genetic optimizer of [geneticOptimization.py]

    A shallow embedding of [GeneticOptimization], [Strategy] and the
    module-level [optimize], followed by the properties of the
    population life cycle, selection, regeneration and mutation.

    Modelling conventions.
    - Python floats are exact rationals ([Q]); rounding, signed zeros
      and NaN are not represented.  Numeric identity is [Qeq].
    - Python integers that count things (sizes, generation numbers)
      are [nat]; [range] of a negative count is empty, which is what
      truncated subtraction on [nat] gives.
    - Objects live in a store; a population holds references, or
      [None].  Exceptions are values of [exn].
    - [random] and [numpy.random] are two independent generators, each
      a sequence of uniform draws from [0,1) with a cursor.
    - The modules [constants], [evaluation], [trafficSim] and
      [visualization] are not part of this file's source; what is used
      of them is taken as a parameter. *)

From Stdlib Require Import QArith Qround ZArith Lia Lqa List Bool Arith.
From Stdlib Require Import Permutation Sorted.
Import ListNotations.

Set Implicit Arguments.
Set Warnings "-abstract-large-number".
Open Scope Q_scope.

(** ** Exceptions and results *)

Inductive exn : Type :=
| AssertionError
| IndexError
| ValueError
| AttributeError.

Inductive result (A : Type) : Type :=
| OK (a : A)
| Raise (e : exn).

Arguments OK {A} a.
Arguments Raise {A} e.

(** ** Uniform draws from [0,1)

    A draw is a fraction [dnum / (dnum + dgap + 1)]: every rational of
    the half-open unit interval has this form and nothing else does. *)

Record draw : Type := { dnum : nat; dgap : nat }.

Definition draw_val (d : draw) : Q :=
  Z.of_nat (dnum d) # Pos.of_succ_nat (dnum d + dgap d).

(** One generator: the sequence it will produce and how far it got. *)
Record prng : Type := { src : nat -> draw; pos : nat }.

Definition prng_next (g : prng) : Q * prng :=
  (draw_val (src g (pos g)), {| src := src g; pos := S (pos g) |}).

(** ** Comparisons on floats *)

Definition Qltb (x y : Q) : bool := negb (Qle_bool y x).

(** [numpy.maximum] and [numpy.minimum] on scalars. *)
Definition np_maximum (a b : Q) : Q := if Qle_bool a b then b else a.
Definition np_minimum (a b : Q) : Q := if Qle_bool a b then a else b.

(** [numpy.clip(a, a_min, a_max)] is [minimum(a_max, maximum(a, a_min))],
    element by element. *)
Definition clip1 (a_min a_max x : Q) : Q :=
  np_minimum a_max (np_maximum x a_min).

Definition np_clip (a : list Q) (a_min a_max : Q) : list Q :=
  map (clip1 a_min a_max) a.

(** Element-wise arithmetic of two arrays of the same size. *)
Fixpoint zip_with {A B C : Type} (f : A -> B -> C)
         (xs : list A) (ys : list B) : list C :=
  match xs, ys with
  | x :: xs', y :: ys' => f x y :: zip_with f xs' ys'
  | _, _ => []
  end.

Definition np_mul_int (d : list Z) (c : list Q) : list Q :=
  zip_with (fun k x => inject_Z k * x) d c.

Definition np_add (a b : list Q) : list Q := zip_with Qplus a b.

(** Vectors are compared component by component, as numbers. *)
Definition vec_eq (a b : list Q) : Prop := Forall2 Qeq a b.

Definition in_range (lo hi x : Q) : Prop := lo <= x /\ x <= hi.

(** ** The collaborators of the optimizer

    [constants.MIN_ACC], [constants.MAX_ACC], [constants.NUM_STEPS],
    the simulation ([TrafficSim(...)] followed by [run()], with its
    [log]), [evaluation.totalPerformance] and the traffic light's
    [maxTime] are defined outside [geneticOptimization.py]. *)

Class Collaborators : Type := {
  TrafficLight : Type;
  Sim : Type;
  Log : Type;
  maxTime : TrafficLight -> Q;
  TrafficSim_run : list Q -> Q -> Sim;
  sim_log : Sim -> Log;
  totalPerformance : Sim -> TrafficLight -> Q;
  MIN_ACC : Q;
  MAX_ACC : Q;
  NUM_STEPS : nat
}.

Section Model.

Context {ext : Collaborators}.

(** ** Objects, references and the world *)

(** The attributes [Strategy.__init__] assigns. *)
Record Strategy : Type := {
  acceleration : list Q;
  trafficLight : TrafficLight;
  sim : Sim;
  fitness : Q
}.

(** What a population slot can hold. *)
Inductive pyref : Type :=
| PyNone
| PyRef (addr : nat).

(** What the reporting calls show. *)
Inductive event : Type :=
| EvPrintFittest (f : Q)
| EvShowTrajectory (logs : list Log).

Record World : Type := {
  py_random : prng;
  np_random : prng;
  store : list Strategy;
  stdout : list event
}.

(** Computations that read and change the world, or raise. *)
Definition M (A : Type) : Type := World -> result (A * World).

Definition ret {A : Type} (a : A) : M A := fun w => OK (a, w).

Definition bind {A B : Type} (m : M A) (f : A -> M B) : M B :=
  fun w => match m w with
           | OK (a, w') => f a w'
           | Raise e => Raise e
           end.

Definition raise {A : Type} (e : exn) : M A := fun _ => Raise e.

Notation "x <- m ;; k" := (bind m (fun x => k))
  (at level 61, m at next level, right associativity).
Notation "m ;;; k" := (bind m (fun _ => k))
  (at level 61, right associativity).

Fixpoint mapM {A B : Type} (f : A -> M B) (l : list A) : M (list B) :=
  match l with
  | [] => ret []
  | x :: l' => y <- f x ;; ys <- mapM f l' ;; ret (y :: ys)
  end.

(** [[m for i in range(n)]] *)
Fixpoint replicateM {A : Type} (n : nat) (m : M A) : M (list A) :=
  match n with
  | O => ret []
  | S n' => y <- m ;; ys <- replicateM n' m ;; ret (y :: ys)
  end.

(** *** Primitive effects *)

Definition py_draw : M Q := fun w =>
  let (u, g) := prng_next (py_random w) in
  OK (u, {| py_random := g; np_random := np_random w;
            store := store w; stdout := stdout w |}).

Definition np_draw : M Q := fun w =>
  let (u, g) := prng_next (np_random w) in
  OK (u, {| py_random := py_random w; np_random := g;
            store := store w; stdout := stdout w |}).

(** Object creation: the new object gets the next free address. *)
Definition alloc (o : Strategy) : M nat := fun w =>
  OK (length (store w),
      {| py_random := py_random w; np_random := np_random w;
         store := store w ++ [o]; stdout := stdout w |}).

(** Attribute access on a population slot; [None] has no attributes. *)
Definition load (r : pyref) : M Strategy := fun w =>
  match r with
  | PyNone => Raise AttributeError
  | PyRef a => match nth_error (store w) a with
               | Some o => OK (o, w)
               | None => Raise AttributeError
               end
  end.

Definition emit (e : event) : M unit := fun w =>
  OK (tt, {| py_random := py_random w; np_random := np_random w;
             store := store w; stdout := stdout w ++ [e] |}).

(** *** The library calls *)

(** [random.random()] *)
Definition random_random : M Q := py_draw.

(** [random.choice(seq)]: an index below [len(seq)], from one draw. *)
Definition choice_index (u : Q) (n : nat) : nat :=
  Z.to_nat (Qfloor (u * inject_Z (Z.of_nat n))).

Definition random_choice {A : Type} (seq : list A) : M A :=
  match seq with
  | [] => raise IndexError
  | _ :: _ =>
      u <- py_draw ;;
      match nth_error seq (choice_index u (length seq)) with
      | Some x => ret x
      | None => raise IndexError
      end
  end.

(** [np.random.binomial(n=1, p=p, size=size)]: one Bernoulli trial per
    element, each decided by a uniform draw. *)
Definition np_random_binomial1 (p : Q) (size : nat) : M (list Z) :=
  if Qltb p 0 || Qltb 1 p then raise ValueError
  else replicateM size (u <- np_draw ;; ret (if Qltb u p then 1%Z else 0%Z)).

(** [np.random.uniform(low=low, high=high, size=size)] *)
Definition np_random_uniform (low high : Q) (size : nat) : M (list Q) :=
  replicateM size (u <- np_draw ;; ret (low + (high - low) * u)).

(** ** class StrategyDriver *)

(** The driver holds [iter(acceleration)]: what is still to be
    yielded.  [next] on an exhausted iterator raises. *)
Record StrategyDriver : Type := { remaining : list Q }.

Inductive driver_exn : Type := StopIteration.

Definition StrategyDriver_init (acceleration : list Q) : StrategyDriver :=
  {| remaining := acceleration |}.

(** [act(pos, vel, time)]: the value returned and the driver after
    the call. *)
Definition act (self : StrategyDriver) (pos vel time : Q)
  : (Q * StrategyDriver) + driver_exn :=
  match remaining self with
  | [] => inr StopIteration
  | a :: rest => inl (a, {| remaining := rest |})
  end.

(** A caller that asks the driver once per observation, in order, and
    collects what it is told to do. *)
Fixpoint drive (self : StrategyDriver) (observations : list (Q * Q * Q))
  : (list Q * StrategyDriver) + driver_exn :=
  match observations with
  | [] => inl ([], self)
  | (p, v, t) :: obs' =>
      match act self p v t with
      | inr e => inr e
      | inl (a, self') =>
          match drive self' obs' with
          | inr e => inr e
          | inl (acts, self'') => inl (a :: acts, self'')
          end
      end
  end.

(** ** class Strategy *)

(** [Strategy(acceleration, trafficLight)]: a new object, its fitness
    determined by running the simulation.  The simulation and the
    scoring are functions here: an exception raised while they run
    (by [trafficSim], by [evaluation], or [StopIteration] from a
    driver asked for more than it holds) is outside the model. *)
Definition Strategy_init (acc : list Q) (tl : TrafficLight) : Strategy :=
  let s := TrafficSim_run acc (maxTime tl) in
  {| acceleration := acc; trafficLight := tl; sim := s;
     fitness := totalPerformance s tl |}.

Definition Strategy_new (acc : list Q) (tl : TrafficLight) : M pyref :=
  a <- alloc (Strategy_init acc tl) ;; ret (PyRef a).

(** The vector [mutate] computes from the parent's vector and the two
    random arrays. *)
Definition mutated_values (acc : list Q) (doChange : list Z)
           (changeAmount : list Q) : list Q :=
  let effectiveChange := np_mul_int doChange changeAmount in
  let newValues := np_add acc effectiveChange in
  np_clip newValues MIN_ACC MAX_ACC.

Definition mutate (self : pyref) (mutationParameter : Q) : M pyref :=
  me <- load self ;;
  let maxChange := 1 in
  doChange <- np_random_binomial1 mutationParameter
                                  (length (acceleration me)) ;;
  changeAmount <- np_random_uniform (- maxChange) maxChange
                                    (length (acceleration me)) ;;
  Strategy_new (mutated_values (acceleration me) doChange changeAmount)
               (trafficLight me).

(** ** class GeneticOptimization *)

Record GeneticOptimization : Type := {
  individualFactory : M pyref;
  numIndividuals : nat;
  numAfterCulling : nat;
  proportionGeneratedThroughMutation : Q;
  mutationParameter : Q;
  numIterations : nat;
  numGeneration : nat;
  generation : list pyref
}.

Definition set_generation (self : GeneticOptimization) (g : list pyref)
  : GeneticOptimization :=
  {| individualFactory := individualFactory self;
     numIndividuals := numIndividuals self;
     numAfterCulling := numAfterCulling self;
     proportionGeneratedThroughMutation :=
       proportionGeneratedThroughMutation self;
     mutationParameter := mutationParameter self;
     numIterations := numIterations self;
     numGeneration := numGeneration self;
     generation := g |}.

Definition set_numGeneration (self : GeneticOptimization) (n : nat)
  : GeneticOptimization :=
  {| individualFactory := individualFactory self;
     numIndividuals := numIndividuals self;
     numAfterCulling := numAfterCulling self;
     proportionGeneratedThroughMutation :=
       proportionGeneratedThroughMutation self;
     mutationParameter := mutationParameter self;
     numIterations := numIterations self;
     numGeneration := n;
     generation := generation self |}.

(** [GeneticOptimization(individualFactory)] *)
Definition GeneticOptimization_init (factory : M pyref)
  : M GeneticOptimization :=
  g <- replicateM 100 factory ;;
  ret {| individualFactory := factory;
         numIndividuals := 100;
         numAfterCulling := 10;
         proportionGeneratedThroughMutation := 1;
         mutationParameter := 9 # 10;
         numIterations := 10000;
         numGeneration := 0;
         generation := g |}.

(** *** Sorting by fitness, best first

    [list.sort(key=..., reverse=True)] computes every key first, then
    sorts stably: equal keys keep the order they had. *)

Definition fitness_of (r : pyref) : M Q :=
  o <- load r ;; ret (fitness o).

Fixpoint insert_desc {A : Type} (kx : Q * A) (l : list (Q * A))
  : list (Q * A) :=
  match l with
  | [] => [kx]
  | ky :: l' =>
      if Qltb (fst kx) (fst ky) then ky :: insert_desc kx l'
      else kx :: l
  end.

Definition sort_desc {A : Type} (l : list (Q * A)) : list (Q * A) :=
  fold_right insert_desc [] l.

Definition sort_by_fitness (g : list pyref) : M (list pyref) :=
  keys <- mapM fitness_of g ;;
  ret (map snd (sort_desc (combine keys g))).

(** [max(seq, key=...)]: the first element whose key is largest. *)
Fixpoint max_from {A : Type} (best : Q * A) (l : list (Q * A)) : Q * A :=
  match l with
  | [] => best
  | kx :: l' => max_from (if Qltb (fst best) (fst kx) then kx else best) l'
  end.

Definition max_by_fitness (g : list pyref) : M pyref :=
  match g with
  | [] => raise ValueError
  | _ :: _ =>
      keys <- mapM fitness_of g ;;
      match combine keys g with
      | [] => raise ValueError
      | kx :: l => ret (snd (max_from kx l))
      end
  end.

(** *** The methods *)

Definition outputInfo (self : GeneticOptimization) : M unit :=
  (if (numGeneration self mod 100 =? 0)%nat then
     best <- max_by_fitness (generation self) ;;
     f <- fitness_of best ;;
     emit (EvPrintFittest f)
   else ret tt) ;;;
  (if (numGeneration self mod 1000 =? 0)%nat then
     logs <- mapM (fun individual =>
                     o <- load individual ;; ret (sim_log (sim o)))
                  (generation self) ;;
     emit (EvShowTrajectory logs)
   else ret tt).

Definition getNewIndividual (self : GeneticOptimization) : M pyref :=
  r <- random_random ;;
  if Qltb r (proportionGeneratedThroughMutation self) then
    randomIndividual <- random_choice (generation self) ;;
    mutate randomIndividual (mutationParameter self)
  else ret PyNone.

(** The selection phase: the first two statements of [iterate]. *)
Definition cull (self : GeneticOptimization) : M GeneticOptimization :=
  sorted <- sort_by_fitness (generation self) ;;
  ret (set_generation self (firstn (numAfterCulling self) sorted)).

Definition iterate (self : GeneticOptimization) : M GeneticOptimization :=
  self <- cull self ;;
  outputInfo self ;;;
  let numToReplenish := (numIndividuals self - numAfterCulling self)%nat in
  newIndividuals <- replicateM numToReplenish (getNewIndividual self) ;;
  let self := set_generation self (generation self ++ newIndividuals) in
  if (length (generation self) =? numIndividuals self)%nat then ret self
  else raise AssertionError.

(** [for self.numGeneration in range(...): self.iterate()] *)
Fixpoint for_generations (gens : list nat) (self : GeneticOptimization)
  : M GeneticOptimization :=
  match gens with
  | [] => ret self
  | g :: gens' =>
      self <- iterate (set_numGeneration self g) ;;
      for_generations gens' self
  end.

Definition optimize (self : GeneticOptimization) : M GeneticOptimization :=
  for_generations (seq 0 (numIterations self)) self.

(** The module-level [optimize(trafficLight)]. *)
Definition strategyFactory (tl : TrafficLight) : M pyref :=
  acc <- np_random_uniform 0 MAX_ACC NUM_STEPS ;;
  Strategy_new acc tl.

Definition optimize_trafficLight (tl : TrafficLight)
  : M GeneticOptimization :=
  opt <- GeneticOptimization_init (strategyFactory tl) ;;
  optimize opt.

End Model.

(** ** Vocabulary of the specifications *)

Section Vocabulary.

Context {ext : Collaborators}.

(** The object a slot refers to, when there is one. *)
Definition deref (w : World) (r : pyref) : option Strategy :=
  match r with
  | PyNone => None
  | PyRef a => nth_error (store w) a
  end.

Definition valid_ref (w : World) (r : pyref) : Prop := deref w r <> None.

(** An attribute read through a reference ([d] where there is none). *)
Definition attr_in {B : Type} (h : Strategy -> B) (d : B)
           (w : World) (r : pyref) : B :=
  match deref w r with
  | Some o => h o
  | None => d
  end.

Definition fitness_in (w : World) (r : pyref) : Q := attr_in fitness 0 w r.

Definition has_fitness (w : World) (q : Q) (r : pyref) : bool :=
  Qeq_bool (fitness_in w r) q.

(** The world after [numpy.random] has produced [n] more draws, and
    the draws themselves. *)
Definition np_skip (n : nat) (w : World) : World :=
  {| py_random := py_random w;
     np_random := {| src := src (np_random w);
                     pos := (pos (np_random w) + n)%nat |};
     store := store w; stdout := stdout w |}.

Definition np_draws (n : nat) (w : World) : list Q :=
  map (fun i => draw_val (src (np_random w) (pos (np_random w) + i)%nat))
      (seq 0 n).

Definition py_skip (n : nat) (w : World) : World :=
  {| py_random := {| src := src (py_random w);
                     pos := (pos (py_random w) + n)%nat |};
     np_random := np_random w;
     store := store w; stdout := stdout w |}.

(** The next value [random] will produce. *)
Definition py_peek (w : World) : Q :=
  draw_val (src (py_random w) (pos (py_random w))).

(** The same stable sort, on a list whose keys are computed by [f]. *)
Fixpoint insert_by {A : Type} (f : A -> Q) (x : A) (l : list A) : list A :=
  match l with
  | [] => [x]
  | y :: l' => if Qltb (f x) (f y) then y :: insert_by f x l' else x :: l
  end.

Definition sort_by {A : Type} (f : A -> Q) (l : list A) : list A :=
  fold_right (insert_by f) [] l.

(** A population the methods can work on: full, every slot an
    individual, and a configuration that makes sense. *)
Record wf (self : GeneticOptimization) (w : World) : Prop := {
  wf_size : length (generation self) = numIndividuals self;
  wf_elite : (0 < numAfterCulling self <= numIndividuals self)%nat;
  wf_rate : 0 <= mutationParameter self /\ mutationParameter self <= 1;
  wf_refs : Forall (valid_ref w) (generation self)
}.

(** The world after some output, and after one more object. *)
Definition say (evs : list event) (w : World) : World :=
  {| py_random := py_random w; np_random := np_random w;
     store := store w; stdout := stdout w ++ evs |}.

Definition push_object (o : Strategy) (w : World) : World :=
  {| py_random := py_random w; np_random := np_random w;
     store := store w ++ [o]; stdout := stdout w |}.

(** Objects are only ever added to the store. *)
Definition store_grows (w w' : World) : Prop :=
  exists news, store w' = store w ++ news.

(** What one uniform draw [u] becomes in [doChange] and in
    [changeAmount]. *)
Definition bernoulli (p u : Q) : Z := if Qltb u p then 1%Z else 0%Z.

Definition perturbation (u : Q) : Q := - (1) + (1 - - (1)) * u.

(** The object [mutate] builds from the parent [me] in world [w]. *)
Definition mutate_child (me : Strategy) (p : Q) (w : World) : Strategy :=
  let n := length (acceleration me) in
  Strategy_init
    (mutated_values (acceleration me)
                    (map (bernoulli p) (np_draws n w))
                    (map perturbation (np_draws n (np_skip n w))))
    (trafficLight me).

(** The calls of [getNewIndividual] made in a row from a world: for
    each, the value [random.random()] gave and what the call returned. *)
Inductive replenished (self : GeneticOptimization)
  : World -> list (Q * pyref) -> World -> Prop :=
| repl_nil : forall w, replenished self w [] w
| repl_cons : forall w x w1 l w2,
    getNewIndividual self w = OK (x, w1) ->
    replenished self w1 l w2 ->
    replenished self w ((py_peek w, x) :: l) w2.

(** What one call of [getNewIndividual] in a replenishment from world
    [w] to world [w'] did, given the value [random.random()] gave:
    nothing, or a mutation of a member of the population. *)
Definition slot_ok (self : GeneticOptimization) (w w' : World)
           (rx : Q * pyref) : Prop :=
  (0 <= fst rx /\ fst rx < 1) /\
  ((proportionGeneratedThroughMutation self <= fst rx /\ snd rx = PyNone) \/
   (fst rx < proportionGeneratedThroughMutation self /\
    ~ valid_ref w (snd rx) /\
    exists parent me w0 w0',
      In parent (generation self) /\
      deref w parent = Some me /\
      mutate parent (mutationParameter self) w0 = OK (snd rx, w0') /\
      deref w' (snd rx) =
        Some (mutate_child me (mutationParameter self) w0))).

(** What [outputInfo] shows in generation [n], given the fitness of
    the best individual and the logs of the population. *)
Definition report_events (n : nat) (best : Q) (logs : list Log)
  : list event :=
  (if (n mod 100 =? 0)%nat then [EvPrintFittest best] else []) ++
  (if (n mod 1000 =? 0)%nat then [EvShowTrajectory logs] else []).

(** A computation that never looks at, or adds to, what was shown. *)
Definition quiet {A : Type} (m : M A) : Prop :=
  forall evs w,
    m (say evs w) =
    match m w with
    | OK (a, w') => OK (a, say evs w')
    | Raise e => Raise e
    end.

(** Two optimizer objects that differ at most in their population and
    generation counter. *)
Definition same_config (a b : GeneticOptimization) : Prop :=
  numIndividuals a = numIndividuals b /\
  numAfterCulling a = numAfterCulling b /\
  proportionGeneratedThroughMutation a =
    proportionGeneratedThroughMutation b /\
  mutationParameter a = mutationParameter b /\
  numIterations a = numIterations b.

(** [n] calls of [iterate] in a row, the generation counter set to
    [g], [g+1], ... before each. *)
Inductive generations_run
  : nat -> nat -> GeneticOptimization * World ->
    GeneticOptimization * World -> Prop :=
| gens_done : forall g sw, generations_run 0 g sw sw
| gens_step : forall n g self w self1 w1 sw2,
    iterate (set_numGeneration self g) w = OK (self1, w1) ->
    generations_run n (S g) (self1, w1) sw2 ->
    generations_run (S n) g (self, w) sw2.

(** A computation all of whose successful runs relate the world
    before to the world after by [R]. *)
Definition respects (R : World -> World -> Prop) {A : Type} (m : M A)
  : Prop :=
  forall w a w', m w = OK (a, w') -> R w w'.

(** An individual of the traffic-light problem: one acceleration per
    step, each within the physical bounds. *)
Definition well_shaped (o : Strategy) : Prop :=
  length (acceleration o) = NUM_STEPS /\
  Forall (in_range MIN_ACC MAX_ACC) (acceleration o).

(** Every object of [w] satisfies [P], and so does every object of
    [w'] if so. *)
Definition keeps (P : Strategy -> Prop) (w w' : World) : Prop :=
  Forall P (store w) -> Forall P (store w').

(** The addresses of the individuals of a population. *)
Fixpoint addresses (g : list pyref) : list nat :=
  match g with
  | [] => []
  | PyNone :: g' => addresses g'
  | PyRef a :: g' => a :: addresses g'
  end.


End Vocabulary.

(** ** A small instance, to run the definitions on *)

Definition toy : Collaborators := {|
  TrafficLight := unit;
  Sim := list Q;
  Log := list Q;
  maxTime := fun _ => 10;
  TrafficSim_run := fun acc _ => acc;
  sim_log := fun s => s;
  totalPerformance := fun s _ => fold_right Qplus 0 s;
  MIN_ACC := - (5);
  MAX_ACC := 2;
  NUM_STEPS := 3
|}.

(** Draws that cycle through 0, 1/3, 2/3. *)
Definition toy_prng : prng :=
  {| src := fun n => {| dnum := n mod 3; dgap := 2 - n mod 3 |}; pos := 0 |}.

Definition toy_world (objs : list (@Strategy toy)) : @World toy :=
  {| py_random := toy_prng; np_random := toy_prng;
     store := objs; stdout := [] |}.

Definition toy_strategy (acc : list Q) : @Strategy toy :=
  @Strategy_init toy acc tt.

Definition toy_optimizer (n k : nat) (p : Q) (gen : nat)
           (g : list pyref) : @GeneticOptimization toy :=
  {| individualFactory := @strategyFactory toy tt;
     numIndividuals := n;
     numAfterCulling := k;
     proportionGeneratedThroughMutation := p;
     mutationParameter := 9 # 10;
     numIterations := 2;
     numGeneration := gen;
     generation := g |}.

(** Four individuals, with fitness 2, 3, 3/2 and 3, and a population
    of them. *)
Definition toy_objects : list (@Strategy toy) :=
  [toy_strategy [1; 1]; toy_strategy [3; 0];
   toy_strategy [1; 1 # 2]; toy_strategy [7; - (4)]].

Definition toy_refs : list pyref := [PyRef 0; PyRef 1; PyRef 2; PyRef 3].

(** * Properties *)

(** ** Numbers *)

Lemma Qltb_lt (x y : Q) : Qltb x y = true <-> x < y.
Proof.
  unfold Qltb. rewrite negb_true_iff.
  split; intro H.
  - apply Qnot_le_lt. intro Hle. apply Qle_bool_iff in Hle. congruence.
  - destruct (Qle_bool y x) eqn:E; [|reflexivity].
    apply Qle_bool_iff in E. exfalso. apply (Qlt_not_le _ _ H E).
Qed.

Lemma Qltb_ge (x y : Q) : Qltb x y = false <-> y <= x.
Proof.
  unfold Qltb. rewrite negb_false_iff. apply Qle_bool_iff.
Qed.

Lemma draw_val_range (d : draw) : 0 <= draw_val d /\ draw_val d < 1.
Proof.
  unfold draw_val, Qle, Qlt. simpl. split; lia.
Qed.

Lemma Qle_bool_false (a b : Q) : Qle_bool a b = false -> b < a.
Proof.
  intro E. apply Qnot_le_lt. rewrite <- Qle_bool_iff. congruence.
Qed.

Ltac split_Qle_bool :=
  repeat match goal with
         | |- context [Qle_bool ?a ?b] =>
             let E := fresh "E" in
             destruct (Qle_bool a b) eqn:E;
             [apply Qle_bool_iff in E | apply Qle_bool_false in E]
         end.

Lemma clip1_in_range (lo hi x : Q) :
  lo <= hi -> in_range lo hi (clip1 lo hi x).
Proof.
  intro H. unfold in_range, clip1, np_maximum. split_Qle_bool;
    unfold np_minimum; split_Qle_bool; split; lra.
Qed.

Lemma clip1_id (lo hi x : Q) : in_range lo hi x -> clip1 lo hi x == x.
Proof.
  intros [H1 H2]. unfold clip1, np_maximum. split_Qle_bool;
    unfold np_minimum; split_Qle_bool; lra.
Qed.

Lemma clip1_compat (lo hi x y : Q) : x == y -> clip1 lo hi x == clip1 lo hi y.
Proof.
  intro H. unfold clip1, np_maximum. split_Qle_bool;
    unfold np_minimum; split_Qle_bool; lra.
Qed.

Lemma inject_one_mul (x : Q) : inject_Z 1 * x = x.
Proof.
  destruct x as [a b]. unfold Qmult, inject_Z. simpl.
  f_equal. destruct a; reflexivity.
Qed.

Lemma add_zero_mul (a x : Q) : a + inject_Z 0 * x == a.
Proof.
  unfold inject_Z. ring.
Qed.

(** ** The monad and the primitive effects *)

Section Effects.

Context {ext : Collaborators}.

Lemma bind_OK {A B : Type} (m : M A) (f : A -> M B) w r :
  bind m f w = OK r -> exists a w1, m w = OK (a, w1) /\ f a w1 = OK r.
Proof.
  unfold bind. destruct (m w) as [[a w1]|e]; [|discriminate].
  intro H. exists a, w1. auto.
Qed.

Lemma bind_eq {A B : Type} (m : M A) (f : A -> M B) w a w1 :
  m w = OK (a, w1) -> bind m f w = f a w1.
Proof.
  unfold bind. intros ->. reflexivity.
Qed.

Lemma np_skip_0 w : np_skip 0 w = w.
Proof.
  destruct w as [p [s n] st o]. unfold np_skip. simpl.
  rewrite Nat.add_0_r. reflexivity.
Qed.

Lemma np_skip_add n m w : np_skip m (np_skip n w) = np_skip (n + m) w.
Proof.
  unfold np_skip. simpl. rewrite Nat.add_assoc. reflexivity.
Qed.

Lemma np_draw_eq w :
  np_draw w = OK (draw_val (src (np_random w) (pos (np_random w))),
                  np_skip 1 w).
Proof.
  unfold np_draw, np_skip, prng_next. simpl.
  rewrite Nat.add_1_r. reflexivity.
Qed.

Lemma py_draw_eq w : py_draw w = OK (py_peek w, py_skip 1 w).
Proof.
  unfold py_draw, py_skip, py_peek, prng_next. simpl.
  rewrite Nat.add_1_r. reflexivity.
Qed.

Lemma np_draws_length n w : length (np_draws n w) = n.
Proof.
  unfold np_draws. rewrite length_map, length_seq. reflexivity.
Qed.

Lemma np_draws_range n w :
  Forall (fun u => 0 <= u /\ u < 1) (np_draws n w).
Proof.
  unfold np_draws. apply Forall_forall. intros u Hu.
  apply in_map_iff in Hu. destruct Hu as (i & <- & _).
  apply draw_val_range.
Qed.

Lemma np_draws_S n w :
  np_draws (S n) w =
  draw_val (src (np_random w) (pos (np_random w))) :: np_draws n (np_skip 1 w).
Proof.
  unfold np_draws. simpl. rewrite Nat.add_0_r. f_equal.
  rewrite <- seq_shift, map_map. apply map_ext. intro i.
  do 2 f_equal. lia.
Qed.

Lemma replicateM_np_draw {B : Type} (f : Q -> B) n w :
  replicateM n (bind np_draw (fun u => ret (f u))) w =
  OK (map f (np_draws n w), np_skip n w).
Proof.
  revert w. induction n as [|n IH]; intro w.
  - simpl. unfold ret. rewrite np_skip_0. reflexivity.
  - cbn [replicateM]. unfold bind at 1. unfold bind at 1.
    rewrite np_draw_eq. unfold ret at 1.
    unfold bind. rewrite IH. unfold ret.
    rewrite np_draws_S, np_skip_add. reflexivity.
Qed.

Lemma load_valid w r :
  valid_ref w r -> exists o, deref w r = Some o /\ load r w = OK (o, w).
Proof.
  unfold valid_ref, load, deref. destruct r as [|a]; [congruence|].
  destruct (nth_error (store w) a) as [o|]; [|congruence].
  intros _. exists o. auto.
Qed.

Lemma load_deref w r o : deref w r = Some o -> load r w = OK (o, w).
Proof.
  unfold load, deref. destruct r as [|a]; [discriminate|].
  intros ->. reflexivity.
Qed.

Lemma load_OK w r o w' :
  load r w = OK (o, w') -> w' = w /\ deref w r = Some o.
Proof.
  unfold load, deref. destruct r as [|a]; [discriminate|].
  destruct (nth_error (store w) a); [|discriminate].
  intro H. inversion H. auto.
Qed.

Lemma mapM_attr {B : Type} (h : Strategy -> B) (d : B) g w :
  Forall (valid_ref w) g ->
  mapM (fun r => bind (load r) (fun o => ret (h o))) g w =
  OK (map (attr_in h d w) g, w).
Proof.
  induction 1 as [|r g Hr Hg IH]; [reflexivity|].
  destruct (load_valid Hr) as (o & Ho & Hl).
  cbn [mapM map].
  assert (E : bind (load r) (fun o => ret (h o)) w = OK (h o, w))
    by (erewrite bind_eq by exact Hl; reflexivity).
  erewrite bind_eq by exact E.
  erewrite bind_eq by exact IH. unfold ret.
  assert (Ea : attr_in h d w r = h o)
    by (unfold attr_in; rewrite Ho; reflexivity).
  rewrite Ea. reflexivity.
Qed.

Lemma mapM_attr_OK {B : Type} (h : Strategy -> B) g w ks w' :
  mapM (fun r => bind (load r) (fun o => ret (h o))) g w = OK (ks, w') ->
  w' = w /\ Forall (valid_ref w) g.
Proof.
  revert ks w'. induction g as [|r g IH]; intros ks w' H.
  - inversion H. auto.
  - cbn [mapM] in H. apply bind_OK in H. destruct H as (k & w1 & H1 & H).
    apply bind_OK in H1. destruct H1 as (o & w2 & Hl & Hr).
    apply load_OK in Hl. destruct Hl as [-> Ho].
    inversion Hr; subst.
    apply bind_OK in H. destruct H as (ks' & w3 & H2 & H).
    apply IH in H2. destruct H2 as [-> Hg].
    inversion H; subst. split; [reflexivity|].
    constructor; [unfold valid_ref; congruence | exact Hg].
Qed.

End Effects.

(** ** The stable sort, best first *)

Section Sorting.

Variable A : Type.
Variable f : A -> Q.

Local Abbreviation decorate := (fun x : A => (f x, x)).
Local Abbreviation above := (fun a b : A => f b <= f a).

Lemma combine_keys (l : list A) : combine (map f l) l = map decorate l.
Proof.
  induction l as [|x l IH]; simpl; [|rewrite IH]; reflexivity.
Qed.

Lemma insert_desc_decorate (x : A) (l : list A) :
  insert_desc (decorate x) (map decorate l) = map decorate (insert_by f x l).
Proof.
  induction l as [|y l IH]; [reflexivity|].
  simpl. destruct (Qltb (f x) (f y)); simpl; [rewrite IH|]; reflexivity.
Qed.

Lemma sort_desc_decorate (l : list A) :
  sort_desc (map decorate l) = map decorate (sort_by f l).
Proof.
  induction l as [|x l IH]; [reflexivity|].
  unfold sort_desc, sort_by in *. simpl. rewrite IH.
  apply insert_desc_decorate.
Qed.

Lemma sort_desc_keys (l : list A) :
  map snd (sort_desc (combine (map f l) l)) = sort_by f l.
Proof.
  rewrite combine_keys, sort_desc_decorate, map_map. simpl.
  apply map_id.
Qed.

Lemma insert_by_perm (x : A) (l : list A) :
  Permutation (x :: l) (insert_by f x l).
Proof.
  induction l as [|y l IH]; [apply Permutation_refl|].
  simpl. destruct (Qltb (f x) (f y)).
  - apply perm_trans with (y :: x :: l); [apply perm_swap|].
    apply perm_skip, IH.
  - apply Permutation_refl.
Qed.

Lemma sort_by_perm (l : list A) : Permutation l (sort_by f l).
Proof.
  induction l as [|x l IH]; [apply perm_nil|].
  change (sort_by f (x :: l)) with (insert_by f x (sort_by f l)).
  apply perm_trans with (x :: sort_by f l);
    [apply perm_skip, IH | apply insert_by_perm].
Qed.

Lemma insert_by_sorted (x : A) (l : list A) :
  StronglySorted above l -> StronglySorted above (insert_by f x l).
Proof.
  induction 1 as [|y l Hl IH Hy].
  - simpl. constructor; constructor.
  - simpl. destruct (Qltb (f x) (f y)) eqn:E.
    + apply Qltb_lt in E. constructor; [exact IH|].
      apply (Permutation_Forall (insert_by_perm x l)).
      constructor; [lra | exact Hy].
    + apply Qltb_ge in E. constructor.
      * constructor; assumption.
      * constructor; [exact E|].
        revert Hy. apply Forall_impl. intros z Hz. lra.
Qed.

Lemma sort_by_sorted (l : list A) : StronglySorted above (sort_by f l).
Proof.
  induction l as [|x l IH]; [constructor|].
  change (sort_by f (x :: l)) with (insert_by f x (sort_by f l)).
  apply insert_by_sorted, IH.
Qed.

Lemma insert_by_stable (q : Q) (x : A) (l : list A) :
  filter (fun a => Qeq_bool (f a) q) (insert_by f x l) =
  filter (fun a => Qeq_bool (f a) q) (x :: l).
Proof.
  induction l as [|y l IH]; [reflexivity|].
  cbn [insert_by]. destruct (Qltb (f x) (f y)) eqn:E; [|reflexivity].
  apply Qltb_lt in E. cbn [filter] in *. rewrite IH.
  destruct (Qeq_bool (f x) q) eqn:Ex, (Qeq_bool (f y) q) eqn:Ey;
    try reflexivity.
  apply Qeq_bool_iff in Ex, Ey. lra.
Qed.

Lemma sort_by_stable (q : Q) (l : list A) :
  filter (fun a => Qeq_bool (f a) q) (sort_by f l) =
  filter (fun a => Qeq_bool (f a) q) l.
Proof.
  induction l as [|x l IH]; [reflexivity|].
  change (sort_by f (x :: l)) with (insert_by f x (sort_by f l)).
  rewrite insert_by_stable. cbn [filter]. rewrite IH. reflexivity.
Qed.

Lemma sorted_app_cross (R : A -> A -> Prop) (l1 l2 : list A) :
  StronglySorted R (l1 ++ l2) ->
  forall a b, In a l1 -> In b l2 -> R a b.
Proof.
  induction l1 as [|x l1 IH]; intros H a b Ha Hb; [contradiction|].
  simpl in H. inversion H as [|? ? Hs Hx]; subst.
  destruct Ha as [->|Ha].
  - rewrite Forall_forall in Hx. apply Hx, in_or_app. auto.
  - apply (IH Hs a b Ha Hb).
Qed.

(** The best [k] of a list: the front of the sorted list dominates the
    rest, which together are the list in stable order. *)
Lemma top_k_of_sort (k : nat) (l : list A) :
  let s := sort_by f l in
  firstn k s ++ skipn k s = s /\
  length (firstn k s) = Nat.min k (length l) /\
  Permutation l (firstn k s ++ skipn k s) /\
  (forall a b, In a (firstn k s) -> In b (skipn k s) -> f b <= f a).
Proof.
  intro s. assert (E : firstn k s ++ skipn k s = s) by apply firstn_skipn.
  split; [exact E|]. split; [|split].
  - rewrite length_firstn. f_equal. symmetry.
    apply Permutation_length, sort_by_perm.
  - rewrite E. apply sort_by_perm.
  - apply (sorted_app_cross (R := above)). rewrite E. apply sort_by_sorted.
Qed.

End Sorting.

(** ** Strategy: construction and mutation *)

Section StrategyFacts.

Context {ext : Collaborators}.

Lemma deref_grows w w' r o :
  store_grows w w' -> deref w r = Some o -> deref w' r = Some o.
Proof.
  intros [news E] H. destruct r as [|a]; [discriminate|].
  simpl in *. rewrite E. rewrite nth_error_app1; [exact H|].
  apply nth_error_Some. congruence.
Qed.

Lemma valid_ref_grows w w' r :
  store_grows w w' -> valid_ref w r -> valid_ref w' r.
Proof.
  unfold valid_ref. intros G H.
  destruct (deref w r) as [o|] eqn:E; [|congruence].
  rewrite (deref_grows _ G E). discriminate.
Qed.

Lemma store_grows_refl w : store_grows w w.
Proof. exists []. symmetry. apply app_nil_r. Qed.

Lemma store_grows_trans w1 w2 w3 :
  store_grows w1 w2 -> store_grows w2 w3 -> store_grows w1 w3.
Proof.
  intros [n1 E1] [n2 E2]. exists (n1 ++ n2).
  rewrite E2, E1. symmetry. apply app_assoc.
Qed.

Lemma deref_fresh o w : deref (push_object o w) (PyRef (length (store w))) = Some o.
Proof.
  simpl. rewrite nth_error_app2 by apply Nat.le_refl.
  rewrite Nat.sub_diag. reflexivity.
Qed.

Lemma fresh_not_valid w : ~ valid_ref w (PyRef (length (store w))).
Proof.
  unfold valid_ref. simpl. intro H. apply H.
  apply nth_error_None. apply Nat.le_refl.
Qed.

Lemma binomial1_eq p n w :
  0 <= p -> p <= 1 ->
  np_random_binomial1 p n w = OK (map (bernoulli p) (np_draws n w), np_skip n w).
Proof.
  intros H0 H1. unfold np_random_binomial1.
  assert (E0 : Qltb p 0 = false) by (apply Qltb_ge; exact H0).
  assert (E1 : Qltb 1 p = false) by (apply Qltb_ge; exact H1).
  rewrite E0, E1. simpl. apply (replicateM_np_draw (bernoulli p)).
Qed.

Lemma binomial1_OK p n w ds w' :
  np_random_binomial1 p n w = OK (ds, w') ->
  ds = map (bernoulli p) (np_draws n w) /\ w' = np_skip n w.
Proof.
  unfold np_random_binomial1.
  destruct (Qltb p 0 || Qltb 1 p); [discriminate|].
  rewrite (replicateM_np_draw (bernoulli p)). intro H. inversion H. auto.
Qed.

Lemma uniform_eq low high n w :
  np_random_uniform low high n w =
  OK (map (fun u => low + (high - low) * u) (np_draws n w), np_skip n w).
Proof.
  apply (replicateM_np_draw (fun u => low + (high - low) * u)).
Qed.

Lemma perturbation_range (u : Q) :
  0 <= u -> u < 1 -> - (1) <= perturbation u /\ perturbation u < 1.
Proof.
  unfold perturbation. intros. split; lra.
Qed.

(** What a successful [mutate] did. *)
Lemma mutate_OK self p w r w' :
  mutate self p w = OK (r, w') ->
  exists me,
    deref w self = Some me /\
    r = PyRef (length (store w)) /\
    w' = push_object (mutate_child me p w)
           (np_skip (length (acceleration me))
                    (np_skip (length (acceleration me)) w)).
Proof.
  unfold mutate. intro H.
  apply bind_OK in H. destruct H as (me & w1 & Hl & H).
  apply load_OK in Hl. destruct Hl as [-> Hme].
  apply bind_OK in H. destruct H as (ds & w2 & Hb & H).
  apply binomial1_OK in Hb. destruct Hb as [-> ->].
  apply bind_OK in H. destruct H as (cs & w3 & Hu & H).
  rewrite uniform_eq in Hu. inversion Hu; subst cs w3. clear Hu.
  exists me. split; [exact Hme|].
  unfold Strategy_new, bind, alloc, ret in H. inversion H. clear H.
  split; reflexivity.
Qed.

(** [mutate] succeeds on every individual, for a rate in [0,1]. *)
Lemma mutate_eq self me p w :
  deref w self = Some me -> 0 <= p -> p <= 1 ->
  mutate self p w =
  OK (PyRef (length (store w)),
      push_object (mutate_child me p w)
        (np_skip (length (acceleration me))
                 (np_skip (length (acceleration me)) w))).
Proof.
  intros Hme H0 H1. unfold mutate.
  erewrite bind_eq by (apply load_deref; exact Hme).
  erewrite bind_eq by (apply binomial1_eq; assumption).
  erewrite bind_eq by apply uniform_eq.
  reflexivity.
Qed.

Lemma mutate_grows self p w r w' :
  mutate self p w = OK (r, w') ->
  store_grows w w' /\ stdout w' = stdout w /\ py_random w' = py_random w.
Proof.
  intro H. apply mutate_OK in H. destruct H as (me & _ & _ & ->).
  split; [|split]; try reflexivity.
  eexists. reflexivity.
Qed.

(** The components of a clipped vector. *)
Lemma np_clip_in_range (v : list Q) :
  MIN_ACC <= MAX_ACC -> Forall (in_range MIN_ACC MAX_ACC) (np_clip v MIN_ACC MAX_ACC).
Proof.
  intro H. unfold np_clip. apply Forall_forall. intros x Hx.
  apply in_map_iff in Hx. destruct Hx as (y & <- & _).
  apply clip1_in_range, H.
Qed.

(** At rate 0 nothing is added before the clip; at rate 1 every
    perturbation is. *)
Lemma mutated_values_zero (acc us vs : list Q) :
  Forall (fun u => 0 <= u) us ->
  length us = length acc -> length vs = length acc ->
  vec_eq (mutated_values acc (map (bernoulli 0) us) vs)
         (np_clip acc MIN_ACC MAX_ACC).
Proof.
  unfold mutated_values, vec_eq, np_clip, np_add, np_mul_int.
  intro Hr. revert acc vs.
  induction Hr as [|u us Hu Hus IH]; intros [|a acc] [|v vs] Hl Hv;
    try discriminate; simpl in *; constructor.
  - apply clip1_compat. unfold bernoulli.
    assert (E : Qltb u 0 = false) by (apply Qltb_ge; exact Hu).
    rewrite E. apply add_zero_mul.
  - apply IH; congruence.
Qed.

Lemma mutated_values_one (acc us vs : list Q) :
  Forall (fun u => u < 1) us ->
  length us = length acc -> length vs = length acc ->
  mutated_values acc (map (bernoulli 1) us) vs =
  np_clip (np_add acc vs) MIN_ACC MAX_ACC.
Proof.
  unfold mutated_values, np_clip, np_add, np_mul_int.
  intro Hr. revert acc vs.
  induction Hr as [|u us Hu Hus IH]; intros [|a acc] [|v vs] Hl Hv;
    try discriminate; simpl in *; try reflexivity.
  unfold bernoulli at 1.
  assert (E : Qltb u 1 = true) by (apply Qltb_lt; exact Hu).
  rewrite E, inject_one_mul. f_equal. apply IH; congruence.
Qed.

Lemma clip_in_range_id (v : list Q) :
  Forall (in_range MIN_ACC MAX_ACC) v ->
  vec_eq (np_clip v MIN_ACC MAX_ACC) v.
Proof.
  unfold vec_eq, np_clip. induction 1 as [|x v Hx Hv IH]; simpl;
    constructor; [apply clip1_id, Hx | exact IH].
Qed.

Lemma vec_eq_trans (a b c : list Q) : vec_eq a b -> vec_eq b c -> vec_eq a c.
Proof.
  unfold vec_eq. intro H. revert c.
  induction H as [|x y a b Hxy Hab IH]; intros c Hc; inversion Hc; subst;
    constructor; [rewrite Hxy; assumption | apply IH; assumption].
Qed.

(** C4. Every component of the vector of an individual produced by
    [mutate] lies within [MIN_ACC, MAX_ACC], whatever the arrays
    [doChange] and [changeAmount] hold. *)
Theorem mutate_output_clamped (Hc : MIN_ACC <= MAX_ACC) :
  (forall acc doChange changeAmount,
      Forall (in_range MIN_ACC MAX_ACC)
             (mutated_values acc doChange changeAmount)) /\
  (forall self p w r w',
      mutate self p w = OK (r, w') ->
      exists child,
        deref w' r = Some child /\
        Forall (in_range MIN_ACC MAX_ACC) (acceleration child)).
Proof.
  split.
  - intros. apply np_clip_in_range, Hc.
  - intros self p w r w' H. apply mutate_OK in H.
    destruct H as (me & _ & -> & ->).
    exists (mutate_child me p w). split.
    + apply (deref_fresh _ (np_skip _ (np_skip _ w))).
    + apply np_clip_in_range, Hc.
Qed.

Lemma bernoulli_zero_draws (us : list Q) :
  Forall (fun u => 0 <= u) us ->
  map (bernoulli 0) us = repeat 0%Z (length us).
Proof.
  induction 1 as [|u us Hu _ IH]; [reflexivity|].
  simpl. rewrite IH. unfold bernoulli.
  assert (E : Qltb u 0 = false) by (apply Qltb_ge; exact Hu).
  rewrite E. reflexivity.
Qed.

Lemma bernoulli_one_draws (us : list Q) :
  Forall (fun u => u < 1) us ->
  map (bernoulli 1) us = repeat 1%Z (length us).
Proof.
  induction 1 as [|u us Hu _ IH]; [reflexivity|].
  simpl. rewrite IH. unfold bernoulli.
  assert (E : Qltb u 1 = true) by (apply Qltb_lt; exact Hu).
  rewrite E. reflexivity.
Qed.

Lemma np_mul_int_ones (cs : list Q) :
  np_mul_int (repeat 1%Z (length cs)) cs = cs.
Proof.
  unfold np_mul_int. induction cs as [|c cs IH]; [reflexivity|].
  simpl. rewrite IH, inject_one_mul. reflexivity.
Qed.

(** C5, as amended. At rate 0 [doChange] is all zeros, [mutate]
    succeeds and the child's vector is the parent's vector clipped to
    [MIN_ACC, MAX_ACC], hence the parent's vector when that lies
    within the range.  At rate 1 [doChange] is all ones, so that
    [effectiveChange] is [changeAmount], the array of perturbations
    drawn from [-1, 1), in every component: [mutate] succeeds and the
    child's vector is the clip of the parent's vector plus
    [changeAmount]. *)
Theorem mutate_rate_extremes w self me :
  deref w self = Some me ->
  (exists child w',
      mutate self 0 w = OK (PyRef (length (store w)), w') /\
      deref w' (PyRef (length (store w))) = Some child /\
      np_random_binomial1 0 (length (acceleration me)) w =
        OK (repeat 0%Z (length (acceleration me)),
            np_skip (length (acceleration me)) w) /\
      vec_eq (acceleration child)
             (np_clip (acceleration me) MIN_ACC MAX_ACC) /\
      (Forall (in_range MIN_ACC MAX_ACC) (acceleration me) ->
       vec_eq (acceleration child) (acceleration me))) /\
  (exists child w' changeAmount,
      mutate self 1 w = OK (PyRef (length (store w)), w') /\
      deref w' (PyRef (length (store w))) = Some child /\
      np_random_binomial1 1 (length (acceleration me)) w =
        OK (repeat 1%Z (length (acceleration me)),
            np_skip (length (acceleration me)) w) /\
      np_random_uniform (- (1)) 1 (length (acceleration me))
                        (np_skip (length (acceleration me)) w) =
        OK (changeAmount,
            np_skip (length (acceleration me))
                    (np_skip (length (acceleration me)) w)) /\
      length changeAmount = length (acceleration me) /\
      Forall (fun c => - (1) <= c /\ c < 1) changeAmount /\
      np_mul_int (repeat 1%Z (length (acceleration me))) changeAmount =
        changeAmount /\
      acceleration child =
        np_clip (np_add (acceleration me) changeAmount) MIN_ACC MAX_ACC).
Proof.
  intro Hme. set (n := length (acceleration me)).
  assert (H0 : Forall (fun u => 0 <= u) (np_draws n w))
    by (generalize (np_draws_range n w); apply Forall_impl; tauto).
  assert (H1 : Forall (fun u => u < 1) (np_draws n w))
    by (generalize (np_draws_range n w); apply Forall_impl; tauto).
  split.
  - exists (mutate_child me 0 w). eexists.
    split; [|split; [|split; [|split]]].
    + apply mutate_eq; [exact Hme | lra | lra].
    + apply (deref_fresh _ (np_skip _ (np_skip _ w))).
    + rewrite binomial1_eq by lra.
      rewrite (bernoulli_zero_draws H0), np_draws_length. reflexivity.
    + apply mutated_values_zero.
      * exact H0.
      * apply np_draws_length.
      * rewrite length_map. apply np_draws_length.
    + intro Hin. eapply vec_eq_trans; [|apply clip_in_range_id, Hin].
      apply mutated_values_zero.
      * exact H0.
      * apply np_draws_length.
      * rewrite length_map. apply np_draws_length.
  - set (changeAmount := map perturbation (np_draws n (np_skip n w))).
    assert (Hl : length changeAmount = n)
      by (unfold changeAmount; rewrite length_map; apply np_draws_length).
    exists (mutate_child me 1 w). eexists. exists changeAmount.
    split; [|split; [|split; [|split; [|split; [|split; [|split]]]]]].
    + apply mutate_eq; [exact Hme | lra | lra].
    + apply (deref_fresh _ (np_skip _ (np_skip _ w))).
    + rewrite binomial1_eq by lra.
      rewrite (bernoulli_one_draws H1), np_draws_length. reflexivity.
    + rewrite uniform_eq. reflexivity.
    + exact Hl.
    + apply Forall_forall. intros c Hc. apply in_map_iff in Hc.
      destruct Hc as (u & <- & Hu).
      pose proof (np_draws_range n (np_skip n w)) as Hr.
      rewrite Forall_forall in Hr. destruct (Hr u Hu).
      apply perturbation_range; assumption.
    + rewrite <- Hl. apply np_mul_int_ones.
    + apply mutated_values_one.
      * exact H1.
      * apply np_draws_length.
      * exact Hl.
Qed.

(** C8. [mutate] leaves its parent, and every other existing object,
    as it was: the child is a new object at an address that was not
    in use. *)
Theorem mutate_preserves_parent self p w r w' :
  mutate self p w = OK (r, w') ->
  (exists me, deref w self = Some me /\ deref w' self = Some me) /\
  (forall x, valid_ref w x -> deref w' x = deref w x) /\
  r <> self /\ ~ valid_ref w r /\ valid_ref w' r.
Proof.
  intro H. destruct (mutate_grows _ _ _ H) as (G & _ & _).
  apply mutate_OK in H. destruct H as (me & Hme & -> & ->).
  split; [|split; [|split; [|split]]].
  - exists me. split; [exact Hme|]. apply (deref_grows _ G Hme).
  - intros x Hx. unfold valid_ref in Hx.
    destruct (deref w x) as [o|] eqn:E; [|congruence].
    apply (deref_grows _ G E).
  - intros <-. apply (fresh_not_valid (w := w)). unfold valid_ref. congruence.
  - apply fresh_not_valid.
  - unfold valid_ref.
    rewrite (deref_fresh _ (np_skip _ (np_skip _ w))). discriminate.
Qed.

End StrategyFacts.

(** ** GeneticOptimization: selection, reporting, regeneration *)

Section OptimizerFacts.

Context {ext : Collaborators}.

Lemma choice_index_lt (u : Q) (n : nat) :
  0 <= u -> u < 1 -> (0 < n)%nat -> (choice_index u n < n)%nat.
Proof.
  intros H0 H1 Hn. unfold choice_index.
  set (x := u * inject_Z (Z.of_nat n)).
  assert (Hpos : 0 < inject_Z (Z.of_nat n))
    by (unfold Qlt; simpl; lia).
  assert (Hx0 : 0 <= x) by (apply Qmult_le_0_compat; lra).
  assert (Hx1 : x < inject_Z (Z.of_nat n)).
  { unfold x. rewrite <- (Qmult_1_l (inject_Z (Z.of_nat n))) at 2.
    apply Qmult_lt_compat_r; assumption. }
  assert (Hf0 : (0 <= Qfloor x)%Z)
    by (apply (Qfloor_resp_le 0 x Hx0)).
  assert (Hf1 : (Qfloor x < Z.of_nat n)%Z).
  { rewrite Zlt_Qlt. eapply Qle_lt_trans; [apply Qfloor_le | exact Hx1]. }
  lia.
Qed.

(** The index chosen is [i] exactly when the draw falls in the [i]-th
    of [n] intervals of equal length. *)
Lemma choice_index_interval (u : Q) (n i : nat) :
  0 <= u ->
  (choice_index u n = i <->
   inject_Z (Z.of_nat i) <= u * inject_Z (Z.of_nat n) /\
   u * inject_Z (Z.of_nat n) < inject_Z (Z.of_nat i) + 1).
Proof.
  intro H0. unfold choice_index.
  set (x := u * inject_Z (Z.of_nat n)).
  assert (Hx0 : 0 <= x).
  { apply Qmult_le_0_compat; [exact H0|]. unfold Qle; simpl; lia. }
  assert (Hf0 : (0 <= Qfloor x)%Z) by (apply (Qfloor_resp_le 0 x Hx0)).
  pose proof (Qfloor_le x) as Hl. pose proof (Qlt_floor x) as Hu.
  split.
  - intros <-. rewrite Z2Nat.id by exact Hf0. split; [exact Hl|].
    rewrite inject_Z_plus in Hu. exact Hu.
  - intros [A B].
    assert (E : Qfloor x = Z.of_nat i).
    { apply Z.le_antisymm.
      - apply Z.lt_succ_r. rewrite Zlt_Qlt.
        eapply Qle_lt_trans; [exact Hl|].
        unfold Z.succ. rewrite inject_Z_plus. exact B.
      - pose proof (Qfloor_resp_le _ _ A) as HA.
        rewrite Qfloor_Z in HA. exact HA. }
    rewrite E. apply Nat2Z.id.
Qed.

Lemma random_choice_eq {A : Type} (seq : list A) w :
  seq <> [] ->
  exists x,
    nth_error seq (choice_index (py_peek (w)) (length seq)) = Some x /\
    In x seq /\
    random_choice seq w = OK (x, py_skip 1 w).
Proof.
  intro Hne.
  assert (Hlt : (choice_index (py_peek w) (length seq) < length seq)%nat).
  { unfold py_peek.
    destruct (draw_val_range (src (py_random w) (pos (py_random w)))).
    apply choice_index_lt; [assumption | assumption |].
    destruct seq; [congruence | simpl; lia]. }
  apply nth_error_Some in Hlt.
  destruct (nth_error seq (choice_index (py_peek w) (length seq)))
    as [x|] eqn:E; [|congruence].
  exists x. split; [reflexivity|]. split; [eapply nth_error_In; exact E|].
  unfold random_choice. destruct seq as [|a seq']; [congruence|].
  erewrite bind_eq by apply py_draw_eq.
  rewrite E. reflexivity.
Qed.

Lemma py_skip_add n m w : py_skip m (py_skip n w) = py_skip (n + m) w.
Proof.
  unfold py_skip. simpl. rewrite Nat.add_assoc. reflexivity.
Qed.

(** The two branches of [getNewIndividual]. *)
Lemma getNewIndividual_else self w :
  proportionGeneratedThroughMutation self <= py_peek w ->
  getNewIndividual self w = OK (PyNone, py_skip 1 w).
Proof.
  intro H. unfold getNewIndividual, random_random.
  erewrite bind_eq by apply py_draw_eq.
  apply Qltb_ge in H. rewrite H. reflexivity.
Qed.

Lemma getNewIndividual_then self w :
  py_peek w < proportionGeneratedThroughMutation self ->
  getNewIndividual self w =
  bind (random_choice (generation self))
       (fun randomIndividual =>
          mutate randomIndividual (mutationParameter self))
       (py_skip 1 w).
Proof.
  intro H. unfold getNewIndividual, random_random.
  erewrite bind_eq by apply py_draw_eq.
  apply Qltb_lt in H. rewrite H. reflexivity.
Qed.

Lemma getNewIndividual_mutates self w :
  py_peek w < proportionGeneratedThroughMutation self ->
  generation self <> [] ->
  Forall (valid_ref w) (generation self) ->
  0 <= mutationParameter self -> mutationParameter self <= 1 ->
  exists parent me,
    nth_error (generation self)
              (choice_index (py_peek (py_skip 1 w))
                            (length (generation self))) = Some parent /\
    In parent (generation self) /\
    deref w parent = Some me /\
    getNewIndividual self w =
      mutate parent (mutationParameter self) (py_skip 2 w) /\
    getNewIndividual self w =
      OK (PyRef (length (store w)),
          push_object (mutate_child me (mutationParameter self) (py_skip 2 w))
            (np_skip (length (acceleration me))
               (np_skip (length (acceleration me)) (py_skip 2 w)))).
Proof.
  intros Hr Hne Hv H0 H1.
  destruct (random_choice_eq (py_skip 1 w) Hne) as (parent & Hn & Hin & Hc).
  rewrite Forall_forall in Hv. pose proof (Hv _ Hin) as Hp.
  unfold valid_ref in Hp.
  destruct (deref w parent) as [me|] eqn:Hme; [|congruence].
  exists parent, me. split; [exact Hn|]. split; [exact Hin|].
  split; [exact Hme|].
  rewrite (@getNewIndividual_then self w Hr).
  erewrite bind_eq by exact Hc. rewrite py_skip_add. simpl.
  split; [reflexivity|].
  exact (@mutate_eq _ parent me (mutationParameter self) (py_skip 2 w)
                   Hme H0 H1).
Qed.

(** One call, under the conditions the loop maintains. *)
Lemma getNewIndividual_post self w :
  generation self <> [] ->
  Forall (valid_ref w) (generation self) ->
  0 <= mutationParameter self -> mutationParameter self <= 1 ->
  exists x w',
    getNewIndividual self w = OK (x, w') /\
    store_grows w w' /\ stdout w' = stdout w /\
    slot_ok self w w' (py_peek w, x).
Proof.
  intros Hne Hv H0 H1.
  assert (Hu : 0 <= py_peek w /\ py_peek w < 1) by apply draw_val_range.
  destruct (Qlt_le_dec (py_peek w) (proportionGeneratedThroughMutation self))
    as [Hr|Hr].
  - destruct (@getNewIndividual_mutates self w Hr Hne Hv H0 H1)
      as (parent & me & _ & Hin & Hme & Em & E).
    eexists. eexists. split; [exact E|].
    split; [eexists; reflexivity|]. split; [reflexivity|].
    split; [exact Hu|]. right. split; [exact Hr|].
    split; [apply fresh_not_valid|].
    exists parent, me, (py_skip 2 w). eexists. split; [exact Hin|].
    split; [exact Hme|]. split; [rewrite <- Em; exact E|].
    apply (deref_fresh _ (np_skip _ (np_skip _ (py_skip 2 w)))).
  - exists PyNone, (py_skip 1 w). split; [apply getNewIndividual_else, Hr|].
    split; [exists []; simpl; rewrite app_nil_r; reflexivity|].
    split; [reflexivity|].
    split; [exact Hu|]. left. auto.
Qed.

Lemma slot_ok_grows self w0 w w1 w2 rx :
  Forall (valid_ref w0) (generation self) ->
  store_grows w0 w -> store_grows w1 w2 ->
  slot_ok self w w1 rx -> slot_ok self w0 w2 rx.
Proof.
  intros Hv G0 G2
         [Hu [H|(Hr & Hn & parent & me & wm & wm' & Hin & Hme & Hmu & Hc)]].
  - split; [exact Hu|]. left. exact H.
  - split; [exact Hu|]. right. split; [exact Hr|]. split.
    + intro Hx. apply Hn. apply (valid_ref_grows G0 Hx).
    + rewrite Forall_forall in Hv. pose proof (Hv _ Hin) as Hp.
      unfold valid_ref in Hp.
      destruct (deref w0 parent) as [me0|] eqn:E; [|congruence].
      pose proof (deref_grows _ G0 E) as E'.
      assert (me0 = me) by congruence. subst me0.
      exists parent, me, wm, wm'. split; [exact Hin|]. split; [exact E|].
      split; [exact Hmu|].
      apply (deref_grows _ G2 Hc).
Qed.

(** The whole list comprehension of [iterate]. *)
Lemma replenish_post self n :
  generation self <> [] ->
  0 <= mutationParameter self -> mutationParameter self <= 1 ->
  forall w,
    Forall (valid_ref w) (generation self) ->
    exists trace w',
      replicateM n (getNewIndividual self) w = OK (map snd trace, w') /\
      length trace = n /\
      replenished self w trace w' /\
      store_grows w w' /\ stdout w' = stdout w /\
      Forall (slot_ok self w w') trace.
Proof.
  intros Hne H0 H1. induction n as [|n IH]; intros w Hv.
  - exists [], w. repeat split; try constructor. apply store_grows_refl.
  - destruct (@getNewIndividual_post self w Hne Hv H0 H1)
      as (x & w1 & E1 & G1 & O1 & S1).
    assert (Hv1 : Forall (valid_ref w1) (generation self)).
    { revert Hv. apply Forall_impl. intro r. apply valid_ref_grows, G1. }
    destruct (IH w1 Hv1) as (trace & w2 & E2 & L2 & R2 & G2 & O2 & S2).
    exists ((py_peek w, x) :: trace), w2.
    split; [|split; [|split; [|split; [|split]]]].
    + cbn [replicateM]. erewrite bind_eq by exact E1.
      erewrite bind_eq by exact E2. reflexivity.
    + simpl. congruence.
    + econstructor; eassumption.
    + apply (store_grows_trans G1 G2).
    + congruence.
    + constructor.
      * apply (@slot_ok_grows self w w w1 w2);
          auto using store_grows_refl.
      * revert S2. apply Forall_impl. intro rx.
        apply (@slot_ok_grows self w w1 w2 w2);
          auto using store_grows_refl.
Qed.

(** *** Reporting *)

Lemma max_from_spec {A : Type} (l : list (Q * A)) :
  forall b,
    In (max_from b l) (b :: l) /\
    forall x, In x (b :: l) -> fst x <= fst (max_from b l).
Proof.
  induction l as [|y l IH]; intro b.
  - simpl. split; [auto|]. intros x [<-|[]]. apply Qle_refl.
  - cbn [max_from].
    destruct (IH (if Qltb (fst b) (fst y) then y else b)) as [Hin Hmax].
    destruct (Qltb (fst b) (fst y)) eqn:E.
    + apply Qltb_lt in E. split.
      * simpl in *. tauto.
      * intros x [<-|[<-|Hx]].
        -- apply Qle_trans with (fst y); [lra|]. apply Hmax. left. reflexivity.
        -- apply Hmax. left. reflexivity.
        -- apply Hmax. right. exact Hx.
    + apply Qltb_ge in E. split.
      * simpl in *. tauto.
      * intros x [<-|[<-|Hx]].
        -- apply Hmax. left. reflexivity.
        -- apply Qle_trans with (fst b); [exact E|]. apply Hmax. left.
           reflexivity.
        -- apply Hmax. right. exact Hx.
Qed.

Lemma fitness_of_eq w r :
  valid_ref w r -> fitness_of r w = OK (fitness_in w r, w).
Proof.
  intro H. destruct (load_valid H) as (o & Ho & Hl).
  unfold fitness_of. erewrite bind_eq by exact Hl.
  unfold ret, fitness_in, attr_in. rewrite Ho. reflexivity.
Qed.

Lemma mapM_fitness_of g w :
  Forall (valid_ref w) g ->
  mapM fitness_of g w = OK (map (fitness_in w) g, w).
Proof.
  apply (mapM_attr fitness 0).
Qed.

Lemma max_by_fitness_post g w :
  g <> [] -> Forall (valid_ref w) g ->
  exists best,
    max_by_fitness g w = OK (best, w) /\
    In best g /\
    forall r, In r g -> fitness_in w r <= fitness_in w best.
Proof.
  intros Hne Hv. destruct g as [|r0 g]; [congruence|].
  unfold max_by_fitness.
  erewrite bind_eq by (apply mapM_fitness_of; exact Hv).
  rewrite combine_keys. cbn [map].
  set (d := fun x : pyref => (fitness_in w x, x)).
  destruct (max_from_spec (map d g) (d r0)) as [Hin Hmax].
  change (d r0 :: map d g) with (map d (r0 :: g)) in Hin, Hmax.
  apply in_map_iff in Hin. destruct Hin as (best & Eb & Hb).
  exists best. split; [|split].
  - unfold ret. change (fitness_in w r0, r0) with (d r0).
    rewrite <- Eb. reflexivity.
  - exact Hb.
  - intros r Hr. specialize (Hmax (d r) (in_map d _ _ Hr)).
    rewrite <- Eb in Hmax. exact Hmax.
Qed.

Lemma valid_ref_say evs w r : valid_ref (say evs w) r <-> valid_ref w r.
Proof. unfold valid_ref. tauto. Qed.

Lemma mapM_logs g w :
  Forall (valid_ref w) g ->
  exists logs,
    mapM (fun individual =>
            bind (load individual) (fun o => ret (sim_log (sim o)))) g w =
    OK (logs, w) /\
    Forall2 (fun r lg => exists o, deref w r = Some o /\ lg = sim_log (sim o))
            g logs.
Proof.
  induction 1 as [|r g Hr Hg IH].
  - exists []. split; [reflexivity | constructor].
  - destruct IH as (logs & E & F).
    destruct (load_valid Hr) as (o & Ho & Hl).
    exists (sim_log (sim o) :: logs). split.
    + cbn [mapM].
      assert (E1 : bind (load r) (fun o => ret (sim_log (sim o))) w =
                   OK (sim_log (sim o), w))
        by (erewrite bind_eq by exact Hl; reflexivity).
      erewrite bind_eq by exact E1. erewrite bind_eq by exact E.
      reflexivity.
    + constructor; [|exact F]. exists o. auto.
Qed.

Lemma say_nil w : say [] w = w.
Proof. destruct w. unfold say. simpl. rewrite app_nil_r. reflexivity. Qed.

Lemma outputInfo_post self w :
  generation self <> [] -> Forall (valid_ref w) (generation self) ->
  exists best logs,
    In best (generation self) /\
    (forall r, In r (generation self) ->
               fitness_in w r <= fitness_in w best) /\
    Forall2 (fun r lg => exists o, deref w r = Some o /\ lg = sim_log (sim o))
            (generation self) logs /\
    outputInfo self w =
    OK (tt, say (report_events (numGeneration self) (fitness_in w best) logs)
                w).
Proof.
  intros Hne Hv.
  destruct (max_by_fitness_post Hne Hv) as (best & Eb & Hb & Hmax).
  destruct (mapM_logs Hv) as (logs & El & Fl).
  exists best, logs. split; [exact Hb|]. split; [exact Hmax|].
  split; [exact Fl|].
  assert (Hvb : valid_ref w best)
    by (rewrite Forall_forall in Hv; apply Hv, Hb).
  unfold outputInfo, report_events.
  set (f := fitness_in w best).
  assert (E1 : (if (numGeneration self mod 100 =? 0)%nat
                then bind (max_by_fitness (generation self))
                       (fun best => bind (fitness_of best)
                                      (fun f => emit (EvPrintFittest f)))
                else ret tt) w =
               OK (tt, say (if (numGeneration self mod 100 =? 0)%nat
                            then [EvPrintFittest f] else []) w)).
  { destruct (numGeneration self mod 100 =? 0)%nat.
    - erewrite bind_eq by exact Eb.
      erewrite bind_eq by (apply fitness_of_eq; exact Hvb). reflexivity.
    - unfold ret. rewrite say_nil. reflexivity. }
  erewrite bind_eq by exact E1.
  destruct (numGeneration self mod 1000 =? 0)%nat.
  - set (w1 := say _ w).
    assert (El1 : mapM (fun individual =>
                    bind (load individual)
                         (fun o => ret (sim_log (sim o))))
                    (generation self) w1 = OK (logs, w1)).
    { assert (Hv1 : Forall (valid_ref w1) (generation self)).
      { revert Hv. apply Forall_impl. intro r. apply valid_ref_say. }
      destruct (mapM_logs Hv1) as (logs1 & E1' & F1).
      rewrite E1'. do 2 f_equal.
      clear - Fl F1. revert logs1 F1.
      induction Fl as [|r lg g logs (o & Ho & ->) Fl IH]; intros logs1 F1;
        inversion F1 as [|? lg1 ? logs1' (o1 & Ho1 & ->) F1']; subst;
        [reflexivity|].
      change (deref w1 r) with (deref w r) in Ho1.
      assert (o1 = o) by congruence. subst o1. f_equal. apply IH, F1'. }
    erewrite bind_eq by exact El1. unfold emit, w1, say. simpl.
    rewrite <- app_assoc. reflexivity.
  - unfold ret. rewrite app_nil_r. reflexivity.
Qed.

(** *** Regeneration does not depend on what was shown *)

Lemma quiet_ret {A : Type} (a : A) : quiet (ret a).
Proof. intros evs w. reflexivity. Qed.

Lemma quiet_raise {A : Type} (e : exn) : quiet (@raise _ A e).
Proof. intros evs w. reflexivity. Qed.

Lemma quiet_bind {A B : Type} (m : M A) (f : A -> M B) :
  quiet m -> (forall a, quiet (f a)) -> quiet (bind m f).
Proof.
  intros Hm Hf evs w. unfold bind. rewrite Hm.
  destruct (m w) as [[a w1]|e]; [apply Hf | reflexivity].
Qed.

Lemma quiet_replicateM {A : Type} (n : nat) (m : M A) :
  quiet m -> quiet (replicateM n m).
Proof.
  intro Hm. induction n as [|n IH]; [apply quiet_ret|].
  cbn [replicateM]. apply quiet_bind; [exact Hm|]. intro y.
  apply quiet_bind; [exact IH|]. intro ys. apply quiet_ret.
Qed.

Lemma quiet_py_draw : quiet py_draw.
Proof. intros evs w. reflexivity. Qed.

Lemma quiet_np_draw : quiet np_draw.
Proof. intros evs w. reflexivity. Qed.

Lemma quiet_alloc o : quiet (alloc o).
Proof. intros evs w. reflexivity. Qed.

Lemma quiet_load r : quiet (load r).
Proof.
  intros evs w. unfold load. destruct r as [|a]; [reflexivity|].
  simpl. destruct (nth_error (store w) a); reflexivity.
Qed.

Lemma quiet_random_choice {A : Type} (seq : list A) : quiet (random_choice seq).
Proof.
  unfold random_choice. destruct seq as [|a seq']; [apply quiet_raise|].
  apply quiet_bind; [apply quiet_py_draw|]. intro u.
  destruct (nth_error _ _); [apply quiet_ret | apply quiet_raise].
Qed.

Lemma quiet_mutate self p : quiet (mutate self p).
Proof.
  unfold mutate. apply quiet_bind; [apply quiet_load|]. intro me.
  apply quiet_bind.
  { unfold np_random_binomial1.
    destruct (Qltb p 0 || Qltb 1 p); [apply quiet_raise|].
    apply quiet_replicateM, quiet_bind; [apply quiet_np_draw|].
    intro u. apply quiet_ret. }
  intro ds. apply quiet_bind.
  { apply quiet_replicateM, quiet_bind; [apply quiet_np_draw|].
    intro u. apply quiet_ret. }
  intro cs. unfold Strategy_new.
  apply quiet_bind; [apply quiet_alloc|]. intro a. apply quiet_ret.
Qed.

Lemma quiet_getNewIndividual self : quiet (getNewIndividual self).
Proof.
  unfold getNewIndividual, random_random.
  apply quiet_bind; [apply quiet_py_draw|]. intro r.
  destruct (Qltb r _); [|apply quiet_ret].
  apply quiet_bind; [apply quiet_random_choice|]. intro parent.
  apply quiet_mutate.
Qed.

(** *** Selection *)

Lemma sort_by_fitness_eq g w :
  Forall (valid_ref w) g ->
  sort_by_fitness g w = OK (sort_by (fitness_in w) g, w).
Proof.
  intro Hv. unfold sort_by_fitness.
  erewrite bind_eq by (apply mapM_fitness_of; exact Hv).
  unfold ret. rewrite sort_desc_keys. reflexivity.
Qed.

Lemma cull_eq self w :
  Forall (valid_ref w) (generation self) ->
  cull self w =
  OK (set_generation self
        (firstn (numAfterCulling self)
                (sort_by (fitness_in w) (generation self))), w).
Proof.
  intro Hv. unfold cull.
  erewrite bind_eq by (apply sort_by_fitness_eq; exact Hv). reflexivity.
Qed.

Lemma Forall_sort_by {A : Type} (P : A -> Prop) (f : A -> Q) (l : list A) :
  Forall P l -> Forall P (sort_by f l).
Proof. apply Permutation_Forall, sort_by_perm. Qed.

Lemma Forall_firstn {A : Type} (P : A -> Prop) (k : nat) (l : list A) :
  Forall P l -> Forall P (firstn k l).
Proof.
  rewrite !Forall_forall. intros H x Hx. apply H.
  rewrite <- (firstn_skipn k l). apply in_or_app. auto.
Qed.

(** *** One generation *)

Lemma iterate_post self w :
  wf self w ->
  let elite := firstn (numAfterCulling self)
                      (sort_by (fitness_in w) (generation self)) in
  let culled := set_generation self elite in
  exists best logs trace w2,
    cull self w = OK (culled, w) /\
    length elite = numAfterCulling self /\
    In best elite /\
    (forall r, In r elite -> fitness_in w r <= fitness_in w best) /\
    Forall2 (fun r lg => exists o, deref w r = Some o /\ lg = sim_log (sim o))
            elite logs /\
    outputInfo culled w =
      OK (tt, say (report_events (numGeneration self)
                                 (fitness_in w best) logs) w) /\
    replicateM (numIndividuals self - numAfterCulling self)
               (getNewIndividual culled) w = OK (map snd trace, w2) /\
    replenished culled w trace w2 /\
    length trace = (numIndividuals self - numAfterCulling self)%nat /\
    Forall (slot_ok culled w w2) trace /\
    store_grows w w2 /\ stdout w2 = stdout w /\
    iterate self w =
      OK (set_generation self (elite ++ map snd trace),
          say (report_events (numGeneration self) (fitness_in w best) logs)
              w2).
Proof.
  intros [Hsize [Hk0 HkN] [Hm0 Hm1] Hv] elite culled.
  assert (Hve : Forall (valid_ref w) elite)
    by (apply Forall_firstn, Forall_sort_by, Hv).
  assert (Hlen : length elite = numAfterCulling self).
  { unfold elite. rewrite length_firstn.
    rewrite <- (Permutation_length (sort_by_perm _ _)). lia. }
  assert (Hne : generation culled <> []).
  { simpl. intro E. rewrite E in Hlen. simpl in Hlen. lia. }
  destruct (@outputInfo_post culled w Hne Hve)
    as (best & logs & Hb & Hmax & Hlogs & Eo).
  destruct (@replenish_post culled
              (numIndividuals self - numAfterCulling self) Hne Hm0 Hm1 w Hve)
    as (trace & w2 & Er & Lr & Rr & Gr & Or & Sr).
  exists best, logs, trace, w2.
  split; [apply cull_eq, Hv|]. split; [exact Hlen|].
  split; [exact Hb|]. split; [exact Hmax|]. split; [exact Hlogs|].
  split; [exact Eo|]. split; [exact Er|]. split; [exact Rr|].
  split; [exact Lr|].
  split; [exact Sr|]. split; [exact Gr|]. split; [exact Or|].
  unfold iterate. erewrite bind_eq by (apply cull_eq, Hv).
  fold elite. fold culled.
  erewrite bind_eq by exact Eo.
  change (numIndividuals culled - numAfterCulling culled)%nat
    with (numIndividuals self - numAfterCulling self)%nat.
  assert (Eq : replicateM (numIndividuals self - numAfterCulling self)
                 (getNewIndividual culled)
                 (say (report_events (numGeneration self)
                                     (fitness_in w best) logs) w) =
               OK (map snd trace,
                   say (report_events (numGeneration self)
                                      (fitness_in w best) logs) w2)).
  { rewrite (quiet_replicateM _ (quiet_getNewIndividual culled)).
    change (numGeneration culled) with (numGeneration self).
    rewrite Er. reflexivity. }
  erewrite bind_eq by exact Eq.
  change (generation culled) with elite.
  change (numIndividuals culled) with (numIndividuals self).
  assert (El : (length (elite ++ map snd trace) =? numIndividuals self)%nat
               = true).
  { apply Nat.eqb_eq. rewrite length_app, length_map, Hlen, Lr. lia. }
  match goal with
  | |- (if ?b then _ else _) _ = _ =>
      change b with (length (elite ++ map snd trace) =? numIndividuals self)%nat
  end.
  rewrite El. reflexivity.
Qed.

(** *** The invariant of the loop *)

Lemma replenished_say self evs w trace w2 :
  replenished self w trace w2 ->
  replenished self (say evs w) trace (say evs w2).
Proof.
  induction 1 as [w|w x w1 l w2 E R IH]; [constructor|].
  change (py_peek w) with (py_peek (say evs w)).
  apply repl_cons with (w1 := say evs w1); [|exact IH].
  rewrite (quiet_getNewIndividual self evs w), E. reflexivity.
Qed.

Lemma slot_forces_mutation self w w2 rx :
  1 <= proportionGeneratedThroughMutation self ->
  slot_ok self w w2 rx -> valid_ref w2 (snd rx).
Proof.
  intros Hp [[_ Hu] [[Hr _]|(_ & _ & parent & me & w0 & w0' & _ & _ & _ & Hc)]].
  - lra.
  - unfold valid_ref. congruence.
Qed.

Lemma wf_set_numGeneration self g w :
  wf self w -> wf (set_numGeneration self g) w.
Proof. intros [H1 H2 H3 H4]. constructor; assumption. Qed.

Lemma same_config_refl self : same_config self self.
Proof. repeat split. Qed.

Lemma same_config_trans a b c :
  same_config a b -> same_config b c -> same_config a c.
Proof.
  unfold same_config. intros (A1 & A2 & A3 & A4 & A5) (B1 & B2 & B3 & B4 & B5).
  repeat split; congruence.
Qed.

(** Whatever [iterate] returns, it changed nothing of the object but
    its population. *)
Lemma iterate_OK_config self w self' w' :
  iterate self w = OK (self', w') ->
  exists g, self' = set_generation self g.
Proof.
  unfold iterate. intro H.
  apply bind_OK in H. destruct H as (s1 & w1 & Hc & H).
  unfold cull in Hc. apply bind_OK in Hc.
  destruct Hc as (sorted & w0 & _ & Hc). inversion Hc; subst s1 w1. clear Hc.
  apply bind_OK in H. destruct H as ([] & w2 & _ & H).
  apply bind_OK in H. destruct H as (news & w3 & _ & H).
  match type of H with
  | (if ?b then _ else _) _ = _ => destruct b; [|discriminate]
  end.
  inversion H. eexists. reflexivity.
Qed.

(** One generation keeps a well-formed population well-formed, when
    every replacement is produced by mutation. *)
Lemma wf_step self w :
  wf self w -> 1 <= proportionGeneratedThroughMutation self ->
  exists self' w',
    iterate self w = OK (self', w') /\
    wf self' w' /\ same_config self self' /\
    numGeneration self' = numGeneration self /\
    store_grows w w'.
Proof.
  intros Hwf Hp.
  destruct (iterate_post Hwf)
    as (best & logs & trace & w2 & _ & Hlen & _ & _ & _ & _ & _ & _ & Lr
        & Sr & Gr & _ & Ei).
  destruct Hwf as [Hsize [Hk0 HkN] Hrate Hv].
  eexists. eexists. split; [exact Ei|].
  split; [|split; [unfold same_config; simpl; repeat split
                  |split; [reflexivity|exact Gr]]].
  constructor; cbn [generation numIndividuals numAfterCulling
                    mutationParameter set_generation].
  - rewrite length_app, length_map, Hlen, Lr. lia.
  - lia.
  - exact Hrate.
  - apply Forall_app. split.
    + apply Forall_firstn, Forall_sort_by. revert Hv. apply Forall_impl.
      intros r Hr. apply valid_ref_say, (valid_ref_grows Gr Hr).
    + apply Forall_forall. intros x Hx. apply in_map_iff in Hx.
      destruct Hx as (rx & <- & Hrx). rewrite Forall_forall in Sr.
      apply valid_ref_say.
      apply (@slot_forces_mutation
               (set_generation self
                  (firstn (numAfterCulling self)
                     (sort_by (fitness_in w) (generation self))))
               w w2 rx Hp (Sr _ Hrx)).
Qed.

Lemma last_default_irrelevant {A : Type} (l : list A) (d d' : A) :
  l <> [] -> last l d = last l d'.
Proof.
  induction l as [|x l IH]; [congruence|]. intros _.
  destruct l as [|y l]; [reflexivity|].
  change (last (x :: y :: l) d) with (last (y :: l) d).
  change (last (x :: y :: l) d') with (last (y :: l) d').
  apply IH. discriminate.
Qed.

Lemma for_generations_post gens :
  forall self w,
    wf self w -> 1 <= proportionGeneratedThroughMutation self ->
    exists self' w',
      for_generations gens self w = OK (self', w') /\
      wf self' w' /\ same_config self self' /\ store_grows w w' /\
      numGeneration self' = last gens (numGeneration self).
Proof.
  induction gens as [|g gens IH]; intros self w Hwf Hp.
  - exists self, w. split; [reflexivity|]. split; [exact Hwf|].
    split; [apply same_config_refl|].
    split; [apply store_grows_refl | reflexivity].
  - destruct (@wf_step (set_numGeneration self g) w
                (wf_set_numGeneration g Hwf) Hp)
      as (self1 & w1 & E1 & Hwf1 & C1 & N1 & G1).
    assert (Hp1 : 1 <= proportionGeneratedThroughMutation self1).
    { destruct C1 as (_ & _ & C1 & _). simpl in C1. rewrite <- C1. exact Hp. }
    destruct (IH self1 w1 Hwf1 Hp1) as (self2 & w2 & E2 & Hwf2 & C2 & G2 & N2).
    exists self2, w2. split; [|split; [exact Hwf2|split; [|split]]].
    + cbn [for_generations]. erewrite bind_eq by exact E1. exact E2.
    + apply same_config_trans with self1; [exact C1 | exact C2].
    + apply (store_grows_trans G1 G2).
    + rewrite N2, N1. simpl numGeneration.
      destruct gens as [|n gens]; [reflexivity|].
      change (last (g :: n :: gens) (numGeneration self))
        with (last (n :: gens) (numGeneration self)).
      apply last_default_irrelevant. discriminate.
Qed.

Lemma for_generations_run n :
  forall g self w sw',
    for_generations (seq g n) self w = OK sw' ->
    generations_run n g (self, w) sw'.
Proof.
  induction n as [|n IH]; intros g self w sw' H.
  - inversion H. constructor.
  - cbn [seq for_generations] in H. apply bind_OK in H.
    destruct H as (self1 & w1 & E1 & H).
    econstructor; [exact E1 | apply IH, H].
Qed.

Lemma last_seq g n : last (seq g (S n)) 0%nat = (g + n)%nat.
Proof.
  revert g. induction n as [|n IH]; intro g.
  - simpl. lia.
  - change (seq g (S (S n))) with (g :: seq (S g) (S n)).
    change (last (g :: seq (S g) (S n)) 0%nat)
      with (last (seq (S g) (S n)) 0%nat).
    rewrite IH. lia.
Qed.

(** *** What the report contains *)

Lemma report_events_spec n f logs e :
  In e (report_events n f logs) <->
  (e = EvPrintFittest f /\ Nat.divide 100 n) \/
  (e = EvShowTrajectory logs /\ Nat.divide 1000 n).
Proof.
  unfold report_events. rewrite in_app_iff.
  rewrite <- !Nat.Lcm0.mod_divide.
  destruct (Nat.eqb_spec (n mod 100) 0) as [E1|E1];
    destruct (Nat.eqb_spec (n mod 1000) 0) as [E2|E2]; simpl;
    intuition congruence.
Qed.

(** ** The population life cycle *)

(** C1. From a full population [iterate] culls to [numAfterCulling]
    survivors, generates [numIndividuals - numAfterCulling] entries,
    appends them, and returns a population of [numIndividuals]
    entries; with every replacement produced by mutation this holds
    generation after generation. *)
Theorem iterate_keeps_population_size self w :
  wf self w ->
  exists elite news w1 self' w',
    cull self w = OK (set_generation self elite, w) /\
    length elite = numAfterCulling self /\
    outputInfo (set_generation self elite) w = OK (tt, w1) /\
    replicateM (numIndividuals self - numAfterCulling self)
               (getNewIndividual (set_generation self elite)) w1 =
      OK (news, w') /\
    length news = (numIndividuals self - numAfterCulling self)%nat /\
    iterate self w = OK (self', w') /\
    generation self' = elite ++ news /\
    numIndividuals self' = numIndividuals self /\
    length (generation self') = numIndividuals self' /\
    (1 <= proportionGeneratedThroughMutation self ->
     wf self' w' /\
     forall gens, exists self'' w'',
       for_generations gens self w = OK (self'', w'') /\
       numIndividuals self'' = numIndividuals self /\
       length (generation self'') = numIndividuals self'').
Proof.
  intro Hwf.
  destruct (iterate_post Hwf)
    as (best & logs & trace & w2 & Ec & Hlen & _ & _ & _ & Eo & Er & _ & Lr
        & _ & _ & _ & Ei).
  set (elite := firstn (numAfterCulling self)
                       (sort_by (fitness_in w) (generation self))) in *.
  set (evs := report_events (numGeneration self) (fitness_in w best) logs)
    in *.
  exists elite, (map snd trace), (say evs w).
  eexists. eexists.
  split; [exact Ec|]. split; [exact Hlen|]. split; [exact Eo|].
  split.
  { rewrite (quiet_replicateM _ (quiet_getNewIndividual _)), Er.
    reflexivity. }
  split; [rewrite length_map; exact Lr|].
  split; [exact Ei|]. split; [reflexivity|]. split; [reflexivity|].
  split.
  { cbn [generation numIndividuals set_generation].
    rewrite length_app, length_map, Hlen, Lr.
    destruct Hwf as [_ [_ HkN] _ _]. lia. }
  intro Hp. split.
  - destruct (wf_step Hwf Hp) as (s1 & v1 & E1 & Hwf1 & _).
    rewrite Ei in E1. inversion E1; subst s1 v1. exact Hwf1.
  - intro gens.
    destruct (for_generations_post gens Hwf Hp)
      as (s2 & v2 & E2 & Hwf2 & (C2 & _) & _).
    exists s2, v2. split; [exact E2|]. split; [symmetry; exact C2|].
    apply (wf_size Hwf2).
Qed.

(** C2. The selection phase keeps exactly the [numAfterCulling]
    fittest individuals: survivors and discarded together are the old
    population, no survivor is less fit than a discarded individual,
    and the order is that of a stable sort, best first. *)
Theorem cull_keeps_top_k self w :
  Forall (valid_ref w) (generation self) ->
  exists elite discarded,
    cull self w = OK (set_generation self elite, w) /\
    length elite = Nat.min (numAfterCulling self) (length (generation self)) /\
    Permutation (generation self) (elite ++ discarded) /\
    (forall a b, In a elite -> In b discarded ->
                 fitness_in w b <= fitness_in w a) /\
    StronglySorted (fun a b => fitness_in w b <= fitness_in w a)
                   (elite ++ discarded) /\
    (forall q, filter (has_fitness w q) (elite ++ discarded) =
               filter (has_fitness w q) (generation self)).
Proof.
  intro Hv.
  set (s := sort_by (fitness_in w) (generation self)).
  exists (firstn (numAfterCulling self) s), (skipn (numAfterCulling self) s).
  destruct (top_k_of_sort (fitness_in w) (numAfterCulling self)
                          (generation self)) as (E & Hl & Hp & Hc).
  fold s in E, Hl, Hp, Hc.
  split; [apply cull_eq, Hv|]. split; [exact Hl|]. split; [exact Hp|].
  split; [exact Hc|]. rewrite E. split.
  - apply sort_by_sorted.
  - intro q. apply (sort_by_stable (fitness_in w) q).
Qed.

(** C3. [optimize] performs [numIterations] calls of [iterate], one
    after the other, with the generation counter 0, 1, ...; the
    counter decides what is shown and nothing else: the population and
    the world [iterate] returns are the same for any two counters, up
    to what was shown. *)
Theorem optimize_runs_numIterations self w :
  wf self w -> 1 <= proportionGeneratedThroughMutation self ->
  exists self' w',
    optimize self w = OK (self', w') /\
    generations_run (numIterations self) 0 (self, w) (self', w') /\
    ((0 < numIterations self)%nat ->
     numGeneration self' = (numIterations self - 1)%nat) /\
    wf self' w' /\
    (forall g1 g2, exists pop w2 evs1 evs2,
        iterate (set_numGeneration self g1) w =
          OK (set_generation (set_numGeneration self g1) pop, say evs1 w2) /\
        iterate (set_numGeneration self g2) w =
          OK (set_generation (set_numGeneration self g2) pop, say evs2 w2)).
Proof.
  intros Hwf Hp.
  destruct (for_generations_post (seq 0 (numIterations self)) Hwf Hp)
    as (self' & w' & E & Hwf' & _ & _ & N).
  exists self', w'. split; [exact E|].
  split; [apply for_generations_run, E|]. split; [|split; [exact Hwf'|]].
  - intro Hn. rewrite N.
    destruct (numIterations self) as [|n]; [lia|].
    rewrite (last_default_irrelevant (numGeneration self) 0%nat)
      by discriminate.
    rewrite last_seq. lia.
  - intros g1 g2.
    destruct (iterate_post (wf_set_numGeneration g1 Hwf))
      as (b1 & l1 & t1 & v1 & _ & _ & _ & _ & _ & _ & R1 & _ & _ & _ & _ & _
          & I1).
    destruct (iterate_post (wf_set_numGeneration g2 Hwf))
      as (b2 & l2 & t2 & v2 & _ & _ & _ & _ & _ & _ & R2 & _ & _ & _ & _ & _
          & I2).
    change (getNewIndividual _) with
      (getNewIndividual
         (set_generation self
            (firstn (numAfterCulling self)
               (sort_by (fitness_in w) (generation self))))) in R1, R2.
    cbn [numIndividuals numAfterCulling set_numGeneration] in R1, R2.
    rewrite R1 in R2. inversion R2 as [[Et Ev]].
    eexists. exists v1. eexists. eexists. split; [exact I1|].
    rewrite I2, <- Et, <- Ev. reflexivity.
Qed.

(** ** Regeneration *)

(** C6. Every call of [getNewIndividual] that [iterate] makes is
    made on the culled population; when the value of
    [random.random()] is below [proportionGeneratedThroughMutation]
    the call returns [parent.mutate(mutationParameter)] for a parent
    taken from the survivors at the index a second draw selects, each
    index having an interval of draws of the same length; the
    survivors are not changed by the choice. *)
Theorem replacements_mutate_survivors self w :
  wf self w ->
  exists elite w1 trace self' w',
    cull self w = OK (set_generation self elite, w) /\
    outputInfo (set_generation self elite) w = OK (tt, w1) /\
    replenished (set_generation self elite) w1 trace w' /\
    iterate self w = OK (self', w') /\
    generation self' = elite ++ map snd trace /\
    Forall (fun rx =>
              fst rx < proportionGeneratedThroughMutation self ->
              exists parent me w0 w0',
                In parent elite /\
                deref w parent = Some me /\
                mutate parent (mutationParameter self) w0 =
                  OK (snd rx, w0') /\
                deref w' (snd rx) =
                  Some (mutate_child me (mutationParameter self) w0))
           trace /\
    (forall v,
        py_peek v < proportionGeneratedThroughMutation self ->
        Forall (valid_ref v) elite ->
        exists parent,
          nth_error elite (choice_index (py_peek (py_skip 1 v))
                                        (length elite)) = Some parent /\
          getNewIndividual (set_generation self elite) v =
            mutate parent (mutationParameter self) (py_skip 2 v)) /\
    (forall u i,
        0 <= u ->
        (choice_index u (length elite) = i <->
         inject_Z (Z.of_nat i) <= u * inject_Z (Z.of_nat (length elite)) /\
         u * inject_Z (Z.of_nat (length elite)) < inject_Z (Z.of_nat i) + 1)).
Proof.
  intro Hwf.
  destruct (iterate_post Hwf)
    as (best & logs & trace & w2 & Ec & Hlen & _ & _ & _ & Eo & _ & Rr & _
        & Sr & _ & _ & Ei).
  set (elite := firstn (numAfterCulling self)
                       (sort_by (fitness_in w) (generation self))) in *.
  set (evs := report_events (numGeneration self) (fitness_in w best) logs)
    in *.
  destruct Hwf as [_ [Hk0 _] [Hm0 Hm1] _].
  exists elite, (say evs w), trace. eexists. eexists.
  split; [exact Ec|]. split; [exact Eo|].
  split; [apply replenished_say, Rr|]. split; [exact Ei|].
  split; [reflexivity|]. split; [|split].
  - revert Sr. apply Forall_impl. intros rx [_ [[Hr _]|(_ & _ & H)]] Hlt.
    + simpl in Hr. lra.
    + exact H.
  - intros v Hr Hv.
    assert (Hne : generation (set_generation self elite) <> []).
    { simpl. intro E. rewrite E in Hlen. simpl in Hlen. lia. }
    destruct (@getNewIndividual_mutates (set_generation self elite) v
                Hr Hne Hv Hm0 Hm1)
      as (parent & me & Hn & _ & _ & Em & _).
    exists parent. split; [exact Hn | exact Em].
  - intros u i Hu. apply choice_index_interval, Hu.
Qed.

(** C7. With [proportionGeneratedThroughMutation] equal to 1, as
    [__init__] sets it, the test in [getNewIndividual] succeeds for
    every draw: the call is the mutation of a chosen parent, and what
    it returns is never [None]. *)
Theorem default_proportion_always_mutates self w :
  proportionGeneratedThroughMutation self == 1 ->
  Qltb (py_peek w) (proportionGeneratedThroughMutation self) = true /\
  getNewIndividual self w =
    bind (random_choice (generation self))
         (fun randomIndividual =>
            mutate randomIndividual (mutationParameter self))
         (py_skip 1 w) /\
  (forall r w', getNewIndividual self w = OK (r, w') ->
                r <> PyNone /\ valid_ref w' r) /\
  (forall factory v self0 v',
      GeneticOptimization_init factory v = OK (self0, v') ->
      proportionGeneratedThroughMutation self0 == 1).
Proof.
  intro Hp.
  assert (Hr : py_peek w < proportionGeneratedThroughMutation self).
  { rewrite Hp. apply draw_val_range. }
  split; [apply Qltb_lt, Hr|].
  split; [apply (@getNewIndividual_then self w Hr)|]. split.
  - intros r w' H. rewrite (@getNewIndividual_then self w Hr) in H.
    apply bind_OK in H. destruct H as (parent & v & _ & H).
    apply mutate_OK in H. destruct H as (me & _ & -> & ->).
    split; [discriminate|]. unfold valid_ref.
    rewrite (deref_fresh _ (np_skip _ (np_skip _ v))). discriminate.
  - intros factory v self0 v' H. unfold GeneticOptimization_init in H.
    apply bind_OK in H. destruct H as (g & v1 & _ & H).
    inversion H. reflexivity.
Qed.

(** C10. Whenever the value of [random.random()] is at least
    [proportionGeneratedThroughMutation], [getNewIndividual] returns
    [None]; [iterate] appends it like any other entry, its size check
    passes, and the population it returns holds an entry that is not
    an individual. *)
Theorem else_branch_appends_None self w :
  wf self w ->
  (forall v, proportionGeneratedThroughMutation self <= py_peek v ->
             forall g, getNewIndividual (set_generation self g) v =
                       OK (PyNone, py_skip 1 v)) /\
  exists elite w1 trace self' w',
    outputInfo (set_generation self elite) w = OK (tt, w1) /\
    replenished (set_generation self elite) w1 trace w' /\
    iterate self w = OK (self', w') /\
    generation self' = elite ++ map snd trace /\
    length (generation self') = numIndividuals self' /\
    (forall r x, In (r, x) trace ->
                 proportionGeneratedThroughMutation self <= r ->
                 x = PyNone /\
                 In PyNone (generation self') /\
                 ~ Forall (valid_ref w') (generation self')).
Proof.
  intro Hwf. split.
  { intros v Hr g. apply getNewIndividual_else. exact Hr. }
  destruct (iterate_post Hwf)
    as (best & logs & trace & w2 & _ & Hlen & _ & _ & _ & Eo & _ & Rr & Lr
        & Sr & _ & _ & Ei).
  set (elite := firstn (numAfterCulling self)
                       (sort_by (fitness_in w) (generation self))) in *.
  set (evs := report_events (numGeneration self) (fitness_in w best) logs)
    in *.
  exists elite, (say evs w), trace. eexists. eexists.
  split; [exact Eo|]. split; [apply replenished_say, Rr|].
  split; [exact Ei|]. split; [reflexivity|]. split.
  { cbn [generation numIndividuals set_generation].
    rewrite length_app, length_map, Hlen, Lr.
    destruct Hwf as [_ [_ HkN] _ _]. lia. }
  intros r x Hin Hr. rewrite Forall_forall in Sr.
  destruct (Sr _ Hin) as [_ [[_ Hx]|[Hlt _]]]; [|simpl in *; lra].
  simpl in Hx. subst x.
  assert (HN : In PyNone (elite ++ map snd trace)).
  { apply in_or_app. right.
    apply (in_map snd trace (r, PyNone)), Hin. }
  split; [reflexivity|]. split; [exact HN|].
  intro Hall. cbn [generation set_generation] in Hall.
  rewrite Forall_forall in Hall. apply (Hall _ HN). reflexivity.
Qed.

(** ** Reporting *)

(** C9. [iterate] calls [outputInfo] on the culled population; what
    is shown is the fitness of a fittest survivor exactly when the
    generation counter is a multiple of 100, and the logs of the
    survivors exactly when it is a multiple of 1000, both at 0. *)
Theorem outputInfo_reports_periodically self w :
  wf self w ->
  exists elite best logs self' w',
    cull self w = OK (set_generation self elite, w) /\
    In best elite /\
    (forall r, In r elite -> fitness_in w r <= fitness_in w best) /\
    Forall2 (fun r lg => exists o, deref w r = Some o /\ lg = sim_log (sim o))
            elite logs /\
    outputInfo (set_generation self elite) w =
      OK (tt, say (report_events (numGeneration self)
                                 (fitness_in w best) logs) w) /\
    iterate self w = OK (self', w') /\
    stdout w' = stdout w ++ report_events (numGeneration self)
                                          (fitness_in w best) logs /\
    (forall e,
        In e (report_events (numGeneration self) (fitness_in w best) logs) <->
        (e = EvPrintFittest (fitness_in w best) /\
         Nat.divide 100 (numGeneration self)) \/
        (e = EvShowTrajectory logs /\
         Nat.divide 1000 (numGeneration self))) /\
    (numGeneration self = 0%nat ->
     report_events (numGeneration self) (fitness_in w best) logs =
     [EvPrintFittest (fitness_in w best); EvShowTrajectory logs]).
Proof.
  intro Hwf.
  destruct (iterate_post Hwf)
    as (best & logs & trace & w2 & Ec & _ & Hb & Hmax & Hl & Eo & _ & _ & _
        & _ & _ & Ho & Ei).
  eexists. exists best, logs. eexists. eexists.
  split; [exact Ec|]. split; [exact Hb|]. split; [exact Hmax|].
  split; [exact Hl|]. split; [exact Eo|]. split; [exact Ei|].
  split; [simpl; rewrite Ho; reflexivity|].
  split; [intro e; apply report_events_spec|].
  intros ->. reflexivity.
Qed.

End OptimizerFacts.

(** ** The run from a fresh optimizer *)

Section WholeRun.

Context {ext : Collaborators}.

Lemma strategyFactory_eq tl w :
  exists o, strategyFactory tl w =
            OK (PyRef (length (store w)),
                push_object o (np_skip NUM_STEPS w)).
Proof.
  unfold strategyFactory. eexists.
  erewrite bind_eq by apply uniform_eq. reflexivity.
Qed.

Lemma factory_population tl n :
  forall w, exists g w',
    replicateM n (strategyFactory tl) w = OK (g, w') /\
    length g = n /\ Forall (valid_ref w') g /\ store_grows w w'.
Proof.
  induction n as [|n IH]; intro w.
  - exists [], w. repeat split; [constructor | apply store_grows_refl].
  - destruct (strategyFactory_eq tl w) as (o & E1).
    set (w1 := push_object o (np_skip NUM_STEPS w)) in *.
    assert (G1 : store_grows w w1) by (exists [o]; reflexivity).
    destruct (IH w1) as (g & w2 & E2 & L2 & V2 & G2).
    exists (PyRef (length (store w)) :: g), w2.
    split; [|split; [|split]].
    + cbn [replicateM]. erewrite bind_eq by exact E1.
      erewrite bind_eq by exact E2. reflexivity.
    + simpl. congruence.
    + constructor; [|exact V2]. apply (valid_ref_grows G2).
      unfold valid_ref, w1.
      rewrite (deref_fresh o (np_skip NUM_STEPS w)). discriminate.
    + apply (store_grows_trans G1 G2).
Qed.

(** [optimize(trafficLight)] never raises: it builds a population of
    100 and takes it through all 10000 generations. *)
Lemma optimize_trafficLight_completes tl w :
  exists opt w0 self' w',
    GeneticOptimization_init (strategyFactory tl) w = OK (opt, w0) /\
    wf opt w0 /\
    optimize_trafficLight tl w = OK (self', w') /\
    generations_run (numIterations opt) 0 (opt, w0) (self', w') /\
    wf self' w' /\ numIndividuals self' = 100%nat.
Proof.
  destruct (factory_population tl 100 w) as (g & w0 & E0 & L0 & V0 & _).
  set (opt := {| individualFactory := strategyFactory tl;
                 numIndividuals := 100;
                 numAfterCulling := 10;
                 proportionGeneratedThroughMutation := 1;
                 mutationParameter := 9 # 10;
                 numIterations := 10000;
                 numGeneration := 0;
                 generation := g |}).
  assert (Ei : GeneticOptimization_init (strategyFactory tl) w = OK (opt, w0)).
  { unfold GeneticOptimization_init. erewrite bind_eq by exact E0.
    reflexivity. }
  assert (Hwf : wf opt w0).
  { constructor; simpl.
    - exact L0.
    - lia.
    - split; discriminate.
    - exact V0. }
  assert (Hp : 1 <= proportionGeneratedThroughMutation opt)
    by (simpl; apply Qle_refl).
  destruct (for_generations_post (seq 0 (numIterations opt)) Hwf Hp)
    as (self' & w' & E & Hwf' & (C & _) & _ & _).
  exists opt, w0, self', w'. split; [exact Ei|]. split; [exact Hwf|].
  split.
  { unfold optimize_trafficLight. erewrite bind_eq by exact Ei. exact E. }
  split; [apply for_generations_run, E|]. split; [exact Hwf'|].
  rewrite <- C. reflexivity.
Qed.

(** Whatever the bounds are, a parent above [MAX_ACC] is not
    reproduced at rate 0: its child sits at [MAX_ACC]. *)
Lemma mutate_zero_clips tl w :
  MIN_ACC <= MAX_ACC ->
  exists parent child w1 w2,
    Strategy_new [MAX_ACC + 1] tl w = OK (parent, w1) /\
    mutate parent 0 w1 = OK (child, w2) /\
    vec_eq (attr_in acceleration [] w2 child) [MAX_ACC] /\
    ~ vec_eq (attr_in acceleration [] w2 child)
             (attr_in acceleration [] w2 parent).
Proof.
  intro Hc.
  set (me := Strategy_init [MAX_ACC + 1] tl).
  set (w1 := push_object me w).
  assert (Hme : deref w1 (PyRef (length (store w))) = Some me)
    by apply deref_fresh.
  pose proof (@mutate_eq _ _ me 0 w1 Hme (Qle_refl 0)) as Em.
  assert (H01 : 0 <= 1) by discriminate. specialize (Em H01).
  eexists. eexists. exists w1. eexists.
  split; [reflexivity|]. split; [exact Em|].
  assert (Ec : attr_in acceleration []
                 (push_object (mutate_child me 0 w1)
                    (np_skip (length (acceleration me))
                       (np_skip (length (acceleration me)) w1)))
                 (PyRef (length (store w1))) =
               acceleration (mutate_child me 0 w1)).
  { unfold attr_in.
    rewrite (deref_fresh _ (np_skip _ (np_skip _ w1))). reflexivity. }
  assert (Ep : attr_in acceleration []
                 (push_object (mutate_child me 0 w1)
                    (np_skip (length (acceleration me))
                       (np_skip (length (acceleration me)) w1)))
                 (PyRef (length (store w))) = [MAX_ACC + 1]).
  { unfold attr_in.
    assert (G : store_grows w1
                  (push_object (mutate_child me 0 w1)
                     (np_skip (length (acceleration me))
                        (np_skip (length (acceleration me)) w1))))
      by (eexists; reflexivity).
    rewrite (deref_grows _ G Hme). reflexivity. }
  rewrite Ec, Ep.
  assert (Hv : vec_eq (acceleration (mutate_child me 0 w1)) [MAX_ACC]).
  { eapply vec_eq_trans.
    - apply mutated_values_zero.
      + generalize (np_draws_range (length (acceleration me)) w1).
        apply Forall_impl. tauto.
      + apply np_draws_length.
      + rewrite length_map. apply np_draws_length.
    - simpl. constructor; [|constructor].
      unfold clip1, np_maximum. split_Qle_bool;
        unfold np_minimum; split_Qle_bool; lra. }
  split; [exact Hv|]. intro Hx. unfold vec_eq in Hv, Hx.
  destruct (acceleration (mutate_child me 0 w1)) as [|a l];
    [inversion Hv|].
  inversion Hv as [|? ? ? ? Ha _]; subst.
  inversion Hx as [|? ? ? ? Hb _]; subst. lra.
Qed.

End WholeRun.

(** ** The theorems on a small population

    Four individuals of fitness 2, 3, 3/2 and 3, of which two survive;
    the bounds are -5 and 2, the draws cycle through 0, 1/3 and 2/3. *)

Lemma toy_population_wf (p : Q) (gen : nat) :
  @wf toy (toy_optimizer 4 2 p gen toy_refs) (toy_world toy_objects).
Proof.
  constructor; simpl.
  - reflexivity.
  - split; repeat constructor.
  - split; discriminate.
  - repeat constructor; discriminate.
Qed.

Lemma toy_refs_valid : Forall (@valid_ref toy (toy_world toy_objects)) toy_refs.
Proof. repeat constructor; discriminate. Qed.

(** One generation at rate of mutation 1/2: the fourth slot is the
    result of the branch that produces nothing. *)
Example toy_iterate_with_None :
  match @iterate toy (toy_optimizer 4 2 (1 # 2) 0 toy_refs)
                 (toy_world toy_objects) with
  | OK (self', _) => generation self' = [PyRef 1; PyRef 3; PyRef 4; PyNone]
  | Raise _ => False
  end.
Proof. vm_compute. reflexivity. Qed.

(** The generation after that fails at the sort, on the entry that
    has no fitness. *)
Example toy_next_generation_fails :
  @iterate toy (toy_optimizer 4 2 (1 # 2) 1
                  [PyRef 1; PyRef 3; PyRef 4; PyNone])
           (toy_world (toy_objects ++ [toy_strategy [2; - (1)]])) =
  Raise AttributeError.
Proof. reflexivity. Qed.

Lemma iterate_keeps_population_size_witness :
  @wf toy (toy_optimizer 4 2 1 0 toy_refs) (toy_world toy_objects) /\
  exists self' w',
    @iterate toy (toy_optimizer 4 2 1 0 toy_refs) (toy_world toy_objects) =
      OK (self', w') /\
    length (generation self') = 4%nat.
Proof.
  split; [apply toy_population_wf|].
  destruct (@iterate_keeps_population_size toy _ _ (toy_population_wf 1 0))
    as (elite & news & w1 & self' & w' & _ & _ & _ & _ & _ & Ei & _ & En & El
        & _).
  exists self', w'. split; [exact Ei|]. rewrite El, En. reflexivity.
Defined.

Lemma cull_keeps_top_k_witness :
  Forall (@valid_ref toy (toy_world toy_objects)) toy_refs /\
  exists elite discarded,
    @cull toy (toy_optimizer 4 2 1 0 toy_refs) (toy_world toy_objects) =
      OK (set_generation (toy_optimizer 4 2 1 0 toy_refs) elite,
          toy_world toy_objects) /\
    length elite = 2%nat /\
    Permutation toy_refs (elite ++ discarded).
Proof.
  split; [apply toy_refs_valid|].
  destruct (@cull_keeps_top_k toy (toy_optimizer 4 2 1 0 toy_refs)
              (toy_world toy_objects) toy_refs_valid)
    as (elite & discarded & Ec & El & Ep & _).
  exists elite, discarded. split; [exact Ec|]. split; [exact El | exact Ep].
Defined.

Lemma optimize_runs_numIterations_witness :
  @wf toy (toy_optimizer 4 2 1 0 toy_refs) (toy_world toy_objects) /\
  1 <= 1 /\
  exists self' w',
    @optimize toy (toy_optimizer 4 2 1 0 toy_refs) (toy_world toy_objects) =
      OK (self', w') /\
    numGeneration self' = 1%nat.
Proof.
  split; [apply toy_population_wf|]. split; [discriminate|].
  assert (Hp : 1 <= proportionGeneratedThroughMutation
                      (toy_optimizer 4 2 1 0 toy_refs)) by discriminate.
  destruct (@optimize_runs_numIterations toy _ _ (toy_population_wf 1 0) Hp)
    as (self' & w' & E & _ & N & _).
  exists self', w'. split; [exact E|]. apply N. repeat constructor.
Defined.

Lemma mutate_output_clamped_witness :
  @MIN_ACC toy <= @MAX_ACC toy /\
  exists r w' child,
    @mutate toy (PyRef 3) (9 # 10) (toy_world toy_objects) = OK (r, w') /\
    deref w' r = Some child /\
    Forall (in_range (- (5)) 2) (acceleration child).
Proof.
  assert (Hc : @MIN_ACC toy <= @MAX_ACC toy) by discriminate.
  split; [exact Hc|].
  destruct (@mutate_output_clamped toy Hc) as [_ H].
  destruct (@mutate toy (PyRef 3) (9 # 10) (toy_world toy_objects))
    as [[r w']|e] eqn:E; [|discriminate E].
  destruct (H _ _ _ _ _ E) as (child & Hd & Hr).
  exists r, w', child. split; [reflexivity|]. split; [exact Hd | exact Hr].
Defined.

Lemma mutate_rate_extremes_witness :
  @deref toy (toy_world toy_objects) (PyRef 0) = Some (toy_strategy [1; 1]) /\
  (exists child w',
      @mutate toy (PyRef 0) 0 (toy_world toy_objects) = OK (PyRef 4, w') /\
      deref w' (PyRef 4) = Some child /\
      vec_eq (acceleration child) [1; 1]) /\
  (exists child w' changeAmount,
      @mutate toy (PyRef 0) 1 (toy_world toy_objects) = OK (PyRef 4, w') /\
      deref w' (PyRef 4) = Some child /\
      acceleration child =
        np_clip (np_add [1; 1] changeAmount) (- (5)) 2).
Proof.
  split; [reflexivity|].
  destruct (@mutate_rate_extremes toy (toy_world toy_objects) (PyRef 0)
              (toy_strategy [1; 1]) eq_refl)
    as [(child & w' & Em & Hd & _ & _ & Hid)
        (child1 & w1 & cs & Em1 & Hd1 & _ & _ & _ & _ & _ & Ec)].
  split.
  - exists child, w'. split; [exact Em|]. split; [exact Hd|].
    apply Hid. repeat constructor; discriminate.
  - exists child1, w1, cs. split; [exact Em1|]. split; [exact Hd1|].
    exact Ec.
Defined.

Lemma replacements_mutate_survivors_witness :
  @wf toy (toy_optimizer 4 2 1 0 toy_refs) (toy_world toy_objects) /\
  exists elite (trace : list (Q * pyref)) self' w',
    @iterate toy (toy_optimizer 4 2 1 0 toy_refs) (toy_world toy_objects) =
      OK (self', w') /\
    generation self' = elite ++ map snd trace.
Proof.
  split; [apply toy_population_wf|].
  destruct (@replacements_mutate_survivors toy _ _ (toy_population_wf 1 0))
    as (elite & w1 & trace & self' & w' & _ & _ & _ & Ei & Eg & _).
  exists elite, trace, self', w'. split; [exact Ei | exact Eg].
Defined.

Lemma default_proportion_always_mutates_witness :
  proportionGeneratedThroughMutation (toy_optimizer 4 2 1 0 toy_refs) == 1 /\
  forall r w',
    @getNewIndividual toy (toy_optimizer 4 2 1 0 toy_refs)
                      (toy_world toy_objects) = OK (r, w') ->
    r <> PyNone.
Proof.
  assert (Hp : proportionGeneratedThroughMutation
                 (toy_optimizer 4 2 1 0 toy_refs) == 1) by reflexivity.
  split; [exact Hp|].
  destruct (@default_proportion_always_mutates toy
              (toy_optimizer 4 2 1 0 toy_refs) (toy_world toy_objects) Hp)
    as (_ & _ & H & _).
  intros r w' E. apply (H r w' E).
Defined.

Lemma mutate_preserves_parent_witness :
  exists r w',
    @mutate toy (PyRef 3) (9 # 10) (toy_world toy_objects) = OK (r, w') /\
    deref w' (PyRef 3) = Some (toy_strategy [7; - (4)]) /\
    r <> PyRef 3.
Proof.
  destruct (@mutate toy (PyRef 3) (9 # 10) (toy_world toy_objects))
    as [[r w']|e] eqn:E; [|discriminate E].
  destruct (@mutate_preserves_parent toy _ _ _ _ _ E)
    as ((me & Hme & Hme') & _ & Hne & _).
  exists r, w'. split; [reflexivity|]. split; [|exact Hne].
  rewrite Hme'. rewrite <- Hme. reflexivity.
Defined.

Lemma outputInfo_reports_periodically_witness :
  @wf toy (toy_optimizer 4 2 1 0 toy_refs) (toy_world toy_objects) /\
  exists f logs self' w',
    @iterate toy (toy_optimizer 4 2 1 0 toy_refs) (toy_world toy_objects) =
      OK (self', w') /\
    stdout w' = [EvPrintFittest f; EvShowTrajectory logs].
Proof.
  split; [apply toy_population_wf|].
  destruct (@outputInfo_reports_periodically toy _ _ (toy_population_wf 1 0))
    as (elite & best & logs & self' & w' & _ & _ & _ & _ & _ & Ei & Es & _
        & E0).
  eexists. exists logs, self', w'. split; [exact Ei|].
  rewrite Es, (E0 eq_refl). reflexivity.
Defined.

Lemma else_branch_appends_None_witness :
  @wf toy (toy_optimizer 4 2 (1 # 2) 0 toy_refs) (toy_world toy_objects) /\
  exists self' w',
    @iterate toy (toy_optimizer 4 2 (1 # 2) 0 toy_refs)
             (toy_world toy_objects) = OK (self', w') /\
    length (generation self') = 4%nat.
Proof.
  split; [apply toy_population_wf|].
  destruct (@else_branch_appends_None toy _ _ (toy_population_wf (1 # 2) 0))
    as (_ & elite & w1 & trace & self' & w' & _ & _ & Ei & _ & El & _).
  exists self', w'. split; [exact Ei|]. rewrite El.
  destruct (iterate_OK_config _ _ Ei) as (g & ->). reflexivity.
Defined.

(** C5 as stated fails: the parent [7, -4] lies above the bound 2, and
    its child at rate 0 has the vector [2, -4]. *)
Lemma mutate_rate_zero_not_identity :
  ~ (forall (me child : @Strategy toy) r w',
        deref (toy_world toy_objects) (PyRef 3) = Some me ->
        mutate (PyRef 3) 0 (toy_world toy_objects) = OK (r, w') ->
        deref w' r = Some child ->
        vec_eq (acceleration child) (acceleration me)).
Proof.
  intro H.
  destruct (@mutate toy (PyRef 3) 0 (toy_world toy_objects))
    as [[r w']|e] eqn:E; [|discriminate E].
  vm_compute in E. inversion E; subst r w'. clear E.
  specialize (H (toy_strategy [7; - (4)]) _ (PyRef 4) _ eq_refl eq_refl
                eq_refl).
  vm_compute in H. inversion H as [|? ? ? ? H7 _]; subst.
  discriminate H7.
Qed.

(** * Further properties of the code *)

(** ** What every successful run does to the world *)

Section Respects.

Context {ext : Collaborators}.

Variable R : World -> World -> Prop.
Hypothesis R_refl : forall w, R w w.
Hypothesis R_trans : forall w1 w2 w3, R w1 w2 -> R w2 w3 -> R w1 w3.
Hypothesis R_same_store : forall w w', store w' = store w -> R w w'.

Lemma respects_ret {A : Type} (a : A) : respects R (ret a).
Proof. intros w b w' H. inversion H; subst. apply R_refl. Qed.

Lemma respects_raise {A : Type} (e : exn) : respects R (@raise _ A e).
Proof. intros w b w' H. discriminate H. Qed.

Lemma respects_bind {A B : Type} (m : M A) (f : A -> M B) :
  respects R m -> (forall a, respects R (f a)) -> respects R (bind m f).
Proof.
  intros Hm Hf w b w' H. apply bind_OK in H.
  destruct H as (a & w1 & H1 & H2).
  apply R_trans with w1; [apply (Hm _ _ _ H1) | apply (Hf a _ _ _ H2)].
Qed.

Lemma respects_mapM {A B : Type} (f : A -> M B) (l : list A) :
  (forall a, respects R (f a)) -> respects R (mapM f l).
Proof.
  intro Hf. induction l as [|x l IH]; [apply respects_ret|].
  cbn [mapM]. apply respects_bind; [apply Hf|]. intro y.
  apply respects_bind; [exact IH|]. intro ys. apply respects_ret.
Qed.

Lemma respects_replicateM {A : Type} (n : nat) (m : M A) :
  respects R m -> respects R (replicateM n m).
Proof.
  intro Hm. induction n as [|n IH]; [apply respects_ret|].
  cbn [replicateM]. apply respects_bind; [exact Hm|]. intro y.
  apply respects_bind; [exact IH|]. intro ys. apply respects_ret.
Qed.

Lemma respects_py_draw : respects R py_draw.
Proof.
  intros w u w' H. rewrite py_draw_eq in H. inversion H; subst.
  apply R_same_store. reflexivity.
Qed.

Lemma respects_np_draw : respects R np_draw.
Proof.
  intros w u w' H. rewrite np_draw_eq in H. inversion H; subst.
  apply R_same_store. reflexivity.
Qed.

Lemma respects_emit e : respects R (emit e).
Proof.
  intros w u w' H. inversion H; subst. apply R_same_store. reflexivity.
Qed.

Lemma respects_load r : respects R (load r).
Proof.
  intros w o w' H. apply load_OK in H. destruct H as [-> _]. apply R_refl.
Qed.

Lemma respects_fitness_of r : respects R (fitness_of r).
Proof.
  unfold fitness_of. apply respects_bind; [apply respects_load|].
  intro o. apply respects_ret.
Qed.

Lemma respects_random_choice {A : Type} (seq : list A) :
  respects R (random_choice seq).
Proof.
  unfold random_choice. destruct seq as [|a seq']; [apply respects_raise|].
  apply respects_bind; [apply respects_py_draw|]. intro u.
  destruct (nth_error _ _); [apply respects_ret | apply respects_raise].
Qed.

Lemma respects_sort_by_fitness g : respects R (sort_by_fitness g).
Proof.
  unfold sort_by_fitness. apply respects_bind.
  - apply respects_mapM. intro r. apply respects_fitness_of.
  - intro ks. apply respects_ret.
Qed.

Lemma respects_max_by_fitness g : respects R (max_by_fitness g).
Proof.
  unfold max_by_fitness. destruct g as [|r g]; [apply respects_raise|].
  apply respects_bind.
  - apply respects_mapM. intro x. apply respects_fitness_of.
  - intro ks. destruct (combine ks (r :: g));
      [apply respects_raise | apply respects_ret].
Qed.

Lemma respects_outputInfo self : respects R (outputInfo self).
Proof.
  unfold outputInfo. apply respects_bind.
  - destruct (numGeneration self mod 100 =? 0)%nat; [|apply respects_ret].
    apply respects_bind; [apply respects_max_by_fitness|]. intro best.
    apply respects_bind; [apply respects_fitness_of|]. intro f.
    apply respects_emit.
  - intros _.
    destruct (numGeneration self mod 1000 =? 0)%nat; [|apply respects_ret].
    apply respects_bind; [|intro logs; apply respects_emit].
    apply respects_mapM. intro r.
    apply respects_bind; [apply respects_load|]. intro o. apply respects_ret.
Qed.

Lemma respects_cull self : respects R (cull self).
Proof.
  unfold cull. apply respects_bind; [apply respects_sort_by_fitness|].
  intro s. apply respects_ret.
Qed.

(** The only step that is not neutral: the object [mutate] adds. *)
Hypothesis R_mutate :
  forall w self me p v,
    deref w self = Some me -> store v = store w ->
    R w (push_object (mutate_child me p w) v).

Lemma respects_mutate self p : respects R (mutate self p).
Proof.
  intros w r w' H. apply mutate_OK in H.
  destruct H as (me & Hme & _ & ->).
  eapply R_mutate; [exact Hme | reflexivity].
Qed.

Lemma respects_getNewIndividual self : respects R (getNewIndividual self).
Proof.
  unfold getNewIndividual, random_random.
  apply respects_bind; [apply respects_py_draw|]. intro r.
  destruct (Qltb r _); [|apply respects_ret].
  apply respects_bind; [apply respects_random_choice|]. intro parent.
  apply respects_mutate.
Qed.

Lemma respects_iterate self : respects R (iterate self).
Proof.
  unfold iterate. apply respects_bind; [apply respects_cull|]. intro s1.
  apply respects_bind; [apply respects_outputInfo|]. intros _.
  apply respects_bind.
  - apply respects_replicateM, respects_getNewIndividual.
  - intro news.
    match goal with
    | |- respects R (if ?b then _ else _) =>
        destruct b; [apply respects_ret | apply respects_raise]
    end.
Qed.

Lemma respects_for_generations gens :
  forall self, respects R (for_generations gens self).
Proof.
  induction gens as [|g gens IH]; intro self; [apply respects_ret|].
  cbn [for_generations]. apply respects_bind; [apply respects_iterate|].
  exact IH.
Qed.

Lemma respects_optimize self : respects R (optimize self).
Proof. apply respects_for_generations. Qed.

(** The objects the factory of [optimize(trafficLight)] adds. *)
Hypothesis R_factory :
  forall tl w v,
    store v = store w ->
    R w (push_object
           (Strategy_init
              (map (fun u => 0 + (MAX_ACC - 0) * u) (np_draws NUM_STEPS w))
              tl) v).

Lemma respects_strategyFactory tl : respects R (strategyFactory tl).
Proof.
  intros w r w' H. unfold strategyFactory in H.
  erewrite bind_eq in H by apply uniform_eq.
  unfold Strategy_new, bind, alloc, ret in H. inversion H; subst.
  match goal with
  | |- R w ?x =>
      change x with
        (push_object
           (Strategy_init
              (map (fun u => 0 + (MAX_ACC - 0) * u) (np_draws NUM_STEPS w))
              tl)
           (np_skip NUM_STEPS w))
  end.
  apply R_factory. reflexivity.
Qed.

Lemma respects_optimize_trafficLight tl :
  respects R (optimize_trafficLight tl).
Proof.
  unfold optimize_trafficLight, GeneticOptimization_init.
  apply respects_bind.
  - apply respects_bind.
    + apply respects_replicateM, respects_strategyFactory.
    + intro g. apply respects_ret.
  - intro opt. apply respects_optimize.
Qed.

End Respects.

(** ** Individuals are never changed, and keep their shape *)

Section Objects.

Context {ext : Collaborators}.

Lemma store_grows_same w w' : store w' = store w -> store_grows w w'.
Proof. intro E. exists []. rewrite E. symmetry. apply app_nil_r. Qed.

Lemma store_grows_push w v o :
  store v = store w -> store_grows w (push_object o v).
Proof. intro E. exists [o]. simpl. rewrite E. reflexivity. Qed.

Lemma iterate_grows self : respects store_grows (iterate self).
Proof.
  apply respects_iterate.
  - apply store_grows_refl.
  - apply store_grows_trans.
  - apply store_grows_same.
  - intros w s me p v _ E. apply store_grows_push, E.
Qed.

Lemma optimize_grows self : respects store_grows (optimize self).
Proof.
  apply respects_optimize.
  - apply store_grows_refl.
  - apply store_grows_trans.
  - apply store_grows_same.
  - intros w s me p v _ E. apply store_grows_push, E.
Qed.

(** X1. Whenever [iterate] or [optimize] returns, every object that
    existed before the call is still there, with the same vector,
    simulation and fitness. *)
Theorem individuals_never_change self w self' w' :
  iterate self w = OK (self', w') \/ optimize self w = OK (self', w') ->
  forall r o, deref w r = Some o -> deref w' r = Some o.
Proof.
  intros [H|H] r o Hr.
  - apply (deref_grows _ (@iterate_grows self w self' w' H) Hr).
  - apply (deref_grows _ (@optimize_grows self w self' w' H) Hr).
Qed.

Lemma keeps_refl P w : keeps P w w.
Proof. intro H. exact H. Qed.

Lemma keeps_trans P w1 w2 w3 : keeps P w1 w2 -> keeps P w2 w3 -> keeps P w1 w3.
Proof. unfold keeps. auto. Qed.

Lemma keeps_same P w w' : store w' = store w -> keeps P w w'.
Proof. unfold keeps. intros ->. auto. Qed.

Lemma keeps_push (P : Strategy -> Prop) w v o :
  store v = store w -> (Forall P (store w) -> P o) ->
  keeps P w (push_object o v).
Proof.
  unfold keeps. intros E Ho H. simpl. rewrite E.
  apply Forall_app. split; [exact H|]. constructor; [apply Ho, H | constructor].
Qed.

Lemma deref_In w r o : deref w r = Some o -> In o (store w).
Proof.
  destruct r as [|a]; [discriminate|]. simpl. apply nth_error_In.
Qed.

Lemma mutated_values_length acc ds cs :
  length ds = length acc -> length cs = length acc ->
  length (mutated_values acc ds cs) = length acc.
Proof.
  unfold mutated_values, np_clip, np_add, np_mul_int. rewrite length_map.
  revert ds cs. induction acc as [|a acc IH]; intros [|d ds] [|c cs] Hd Hc;
    try discriminate; [reflexivity|].
  simpl in *. f_equal. apply IH; congruence.
Qed.

Lemma mutate_child_length me p w :
  length (acceleration (mutate_child me p w)) = length (acceleration me).
Proof.
  unfold mutate_child. cbn [acceleration Strategy_init].
  apply mutated_values_length; rewrite length_map; apply np_draws_length.
Qed.

Lemma mutate_child_well_shaped me p w :
  MIN_ACC <= MAX_ACC -> well_shaped me -> well_shaped (mutate_child me p w).
Proof.
  intros Hc [Hl _]. split.
  - rewrite mutate_child_length. exact Hl.
  - apply np_clip_in_range, Hc.
Qed.

Lemma factory_values_in_bounds (us : list Q) :
  0 <= MAX_ACC ->
  Forall (fun u => 0 <= u /\ u < 1) us ->
  Forall (in_range 0 MAX_ACC) (map (fun u => 0 + (MAX_ACC - 0) * u) us).
Proof.
  intros Hm Hu. apply Forall_forall. intros c Hc.
  apply in_map_iff in Hc. destruct Hc as (u & <- & Hin).
  rewrite Forall_forall in Hu. destruct (Hu u Hin) as [H0 H1].
  assert (Hp : 0 <= MAX_ACC * u) by (apply Qmult_le_0_compat; assumption).
  assert (Hq : 0 <= MAX_ACC * (1 - u))
    by (apply Qmult_le_0_compat; [assumption | lra]).
  unfold in_range. split; [lra|].
  setoid_replace (MAX_ACC * (1 - u)) with (MAX_ACC - MAX_ACC * u) in Hq
    by ring.
  lra.
Qed.

Lemma factory_object_well_shaped tl w :
  MIN_ACC <= 0 -> 0 <= MAX_ACC ->
  well_shaped
    (Strategy_init
       (map (fun u => 0 + (MAX_ACC - 0) * u) (np_draws NUM_STEPS w)) tl).
Proof.
  intros Hlo Hhi. split; cbn [acceleration Strategy_init].
  - rewrite length_map. apply np_draws_length.
  - generalize (factory_values_in_bounds Hhi (np_draws_range NUM_STEPS w)).
    apply Forall_impl. unfold in_range. intros c [H1 H2]. split; lra.
Qed.

(** X2. With [MIN_ACC <= 0 <= MAX_ACC], and every object that
    exists before the call well shaped, whenever
    [optimize(trafficLight)] returns, every object of the store, hence
    every individual the call has created and every member of the
    final population, has [NUM_STEPS] accelerations, each within
    [MIN_ACC, MAX_ACC]. *)
Theorem optimize_trafficLight_well_shaped tl w self' w' :
  MIN_ACC <= 0 -> 0 <= MAX_ACC ->
  Forall well_shaped (store w) ->
  optimize_trafficLight tl w = OK (self', w') ->
  Forall well_shaped (store w') /\
  (forall r, In r (generation self') ->
             exists o, deref w' r = Some o /\ well_shaped o).
Proof.
  intros Hlo Hhi Hw E.
  assert (Hs : Forall well_shaped (store w')).
  { assert (Hr : respects (keeps well_shaped) (optimize_trafficLight tl)).
    { apply respects_optimize_trafficLight.
      - apply keeps_refl.
      - apply keeps_trans.
      - apply keeps_same.
      - intros v s0 me p v' Hme Ev. apply keeps_push; [exact Ev|].
        intro Hall. apply mutate_child_well_shaped; [lra|].
        rewrite Forall_forall in Hall. apply Hall, (deref_In _ _ Hme).
      - intros tl' v v' Ev. apply keeps_push; [exact Ev|]. intros _.
        apply factory_object_well_shaped; assumption. }
    apply (Hr _ _ _ E Hw). }
  split; [exact Hs|]. intros r Hr.
  destruct (optimize_trafficLight_completes tl w)
    as (opt & w0 & s1 & w1 & _ & _ & E1 & _ & Hwf & _).
  rewrite E in E1. inversion E1; subst s1 w1. clear E1.
  pose proof (wf_refs Hwf) as Hv. rewrite Forall_forall in Hv.
  specialize (Hv r Hr). unfold valid_ref in Hv.
  destruct (deref w' r) as [o|] eqn:Eo; [|congruence].
  exists o. split; [reflexivity|].
  rewrite Forall_forall in Hs. apply Hs, (deref_In _ _ Eo).
Qed.

End Objects.

(** ** The whole run, and the fittest individual *)

Section Runs.

Context {ext : Collaborators}.

(** [optimize] from a well-formed optimizer, every replacement a
    mutation. *)
Lemma optimize_post self w :
  wf self w -> 1 <= proportionGeneratedThroughMutation self ->
  exists self' w',
    optimize self w = OK (self', w') /\
    wf self' w' /\ same_config self self' /\
    (forall n, numIterations self = S n -> numGeneration self' = n).
Proof.
  intros Hwf Hp.
  destruct (for_generations_post (seq 0 (numIterations self)) Hwf Hp)
    as (self' & w' & E & Hwf' & C & _ & N).
  exists self', w'. split; [exact E|]. split; [exact Hwf'|].
  split; [exact C|]. intros n Hn. rewrite N, Hn.
  rewrite (last_default_irrelevant (numGeneration self) 0%nat)
    by discriminate.
  rewrite last_seq. reflexivity.
Qed.

(** With the construction of an individual modelled as a function,
    the run of [optimize(trafficLight)] on any traffic light and any
    draws. *)
Lemma optimize_trafficLight_run tl w :
  exists self' w',
    optimize_trafficLight tl w = OK (self', w') /\
    length (generation self') = 100%nat /\
    Forall (valid_ref w') (generation self') /\
    S (numGeneration self') = 10000%nat.
Proof.
  destruct (factory_population tl 100 w) as (g & w0 & E0 & L0 & V0 & _).
  set (opt := {| individualFactory := strategyFactory tl;
                 numIndividuals := 100;
                 numAfterCulling := 10;
                 proportionGeneratedThroughMutation := 1;
                 mutationParameter := 9 # 10;
                 numIterations := 10000;
                 numGeneration := 0;
                 generation := g |}).
  assert (Hwf : wf opt w0).
  { constructor; simpl.
    - exact L0.
    - lia.
    - split; discriminate.
    - exact V0. }
  assert (Hp : 1 <= proportionGeneratedThroughMutation opt)
    by (simpl; apply Qle_refl).
  destruct (optimize_post Hwf Hp) as (self' & w' & E & Hwf' & (C1 & _) & N).
  exists self', w'. split; [|split; [|split]].
  - unfold optimize_trafficLight, GeneticOptimization_init.
    erewrite bind_eq by (erewrite bind_eq by exact E0; reflexivity).
    exact E.
  - rewrite (wf_size Hwf'), <- C1. reflexivity.
  - apply (wf_refs Hwf').
  - destruct (numIterations opt) as [|n] eqn:En; [discriminate En|].
    rewrite (N n eq_refl). symmetry. exact En.
Qed.

(** X3. Whenever [optimize(trafficLight)] returns, it returns after
    the generation numbered 9999, with a population of exactly 100
    entries, each of them an individual. *)
Theorem optimize_trafficLight_on_return tl w self' w' :
  optimize_trafficLight tl w = OK (self', w') ->
  length (generation self') = 100%nat /\
  Forall (valid_ref w') (generation self') /\
  S (numGeneration self') = 10000%nat.
Proof.
  intro E.
  destruct (optimize_trafficLight_run tl w) as (s1 & w1 & E1 & H).
  rewrite E in E1. inversion E1; subst s1 w1. exact H.
Qed.

Lemma fitness_in_grows w w' r :
  store_grows w w' -> valid_ref w r -> fitness_in w' r = fitness_in w r.
Proof.
  intros G Hv. unfold valid_ref in Hv. unfold fitness_in, attr_in.
  destruct (deref w r) as [o|] eqn:E; [|congruence].
  rewrite (deref_grows _ G E). reflexivity.
Qed.







End Runs.

(** ** The size check, and populations [iterate] cannot work on *)

Section EdgeCases.

Context {ext : Collaborators}.

(** [iterate] up to its assertion, for any population of individuals
    of which at least one survives. *)
Lemma iterate_general self w :
  Forall (valid_ref w) (generation self) ->
  generation self <> [] ->
  (0 < numAfterCulling self)%nat ->
  0 <= mutationParameter self -> mutationParameter self <= 1 ->
  let elite := firstn (numAfterCulling self)
                      (sort_by (fitness_in w) (generation self)) in
  exists evs (trace : list (Q * pyref)) w2,
    length elite = Nat.min (numAfterCulling self) (length (generation self)) /\
    length trace = (numIndividuals self - numAfterCulling self)%nat /\
    replicateM (numIndividuals self - numAfterCulling self)
               (getNewIndividual (set_generation self elite)) w =
      OK (map snd trace, w2) /\
    iterate self w =
      if (length (elite ++ map snd trace) =? numIndividuals self)%nat
      then OK (set_generation self (elite ++ map snd trace), say evs w2)
      else Raise AssertionError.
Proof.
  intros Hv Hg Hk Hm0 Hm1 elite.
  set (culled := set_generation self elite).
  assert (Hve : Forall (valid_ref w) elite)
    by (apply Forall_firstn, Forall_sort_by, Hv).
  assert (Hlen : length elite =
                 Nat.min (numAfterCulling self) (length (generation self))).
  { unfold elite. rewrite length_firstn.
    rewrite <- (Permutation_length (sort_by_perm _ _)). reflexivity. }
  assert (Hne : generation culled <> []).
  { simpl. intro E. rewrite E in Hlen. simpl in Hlen.
    destruct (generation self); [congruence | simpl in Hlen; lia]. }
  destruct (@outputInfo_post _ culled w Hne Hve)
    as (best & logs & _ & _ & _ & Eo).
  destruct (@replenish_post _ culled
              (numIndividuals self - numAfterCulling self) Hne Hm0 Hm1 w Hve)
    as (trace & w2 & Er & Lr & _).
  eexists. exists trace, w2.
  split; [exact Hlen|]. split; [exact Lr|]. split; [exact Er|].
  unfold iterate. erewrite bind_eq by (apply cull_eq, Hv).
  fold elite. fold culled.
  erewrite bind_eq by exact Eo.
  change (numIndividuals culled - numAfterCulling culled)%nat
    with (numIndividuals self - numAfterCulling self)%nat.
  erewrite bind_eq.
  2:{ rewrite (quiet_replicateM _ (quiet_getNewIndividual culled)).
      rewrite Er. reflexivity. }
  match goal with
  | |- (if ?b then _ else _) _ = _ =>
      change b with (length (elite ++ map snd trace) =? numIndividuals self)%nat
  end.
  destruct (length (elite ++ map snd trace) =? numIndividuals self)%nat;
    reflexivity.
Qed.

(** X5. What the assertion of [iterate] decides, for a non-empty
    population of [L] individuals, [numAfterCulling > 0] and a
    mutation rate within [0, 1]: [iterate] returns,
    with [numIndividuals] entries, exactly when
    [min(numAfterCulling, L) + max(numIndividuals - numAfterCulling, 0)]
    is [numIndividuals], and raises [AssertionError] otherwise.  So a
    population that is too large is cut back, and one smaller than
    [numAfterCulling] is refused. *)
Theorem iterate_size_check self w :
  Forall (valid_ref w) (generation self) ->
  generation self <> [] ->
  (0 < numAfterCulling self)%nat ->
  0 <= mutationParameter self -> mutationParameter self <= 1 ->
  ((Nat.min (numAfterCulling self) (length (generation self)) +
    (numIndividuals self - numAfterCulling self) = numIndividuals self)%nat ->
   exists self' w',
     iterate self w = OK (self', w') /\
     length (generation self') = numIndividuals self) /\
  ((Nat.min (numAfterCulling self) (length (generation self)) +
    (numIndividuals self - numAfterCulling self) <> numIndividuals self)%nat ->
   iterate self w = Raise AssertionError).
Proof.
  intros Hv Hg Hk Hm0 Hm1.
  destruct (@iterate_general self w Hv Hg Hk Hm0 Hm1)
    as (evs & trace & w2 & Hlen & Lr & _ & Ei).
  assert (El : length (firstn (numAfterCulling self)
                         (sort_by (fitness_in w) (generation self)) ++
                       map snd trace) =
               (Nat.min (numAfterCulling self) (length (generation self)) +
                (numIndividuals self - numAfterCulling self))%nat)
    by (rewrite length_app, length_map, Hlen, Lr; reflexivity).
  rewrite El in Ei. split; intro H.
  - apply Nat.eqb_eq in H. rewrite H in Ei.
    eexists. eexists. split; [exact Ei|].
    cbn [generation set_generation]. rewrite El. apply Nat.eqb_eq, H.
  - apply Nat.eqb_neq in H. rewrite H in Ei. exact Ei.
Qed.

(** X6. With [numAfterCulling >= numIndividuals] a full, non-empty
    population of individuals passes the size check although nothing
    is replaced: [iterate]
    returns the population sorted, creates no individual and draws no
    random number. *)
Theorem iterate_without_room_only_sorts self w :
  Forall (valid_ref w) (generation self) ->
  generation self <> [] ->
  length (generation self) = numIndividuals self ->
  (numIndividuals self <= numAfterCulling self)%nat ->
  exists evs,
    iterate self w =
    OK (set_generation self (sort_by (fitness_in w) (generation self)),
        say evs w).
Proof.
  intros Hv Hg HL HK.
  set (s := sort_by (fitness_in w) (generation self)).
  assert (Hs : length s = length (generation self))
    by (symmetry; apply Permutation_length, sort_by_perm).
  assert (Hf : firstn (numAfterCulling self) s = s)
    by (apply firstn_all2; lia).
  assert (Hvs : Forall (valid_ref w) s) by (apply Forall_sort_by, Hv).
  assert (Hne : generation (set_generation self s) <> []).
  { simpl. intro E. rewrite E in Hs. simpl in Hs.
    destruct (generation self); [congruence | discriminate Hs]. }
  destruct (@outputInfo_post _ (set_generation self s) w Hne Hvs)
    as (best & logs & _ & _ & _ & Eo).
  eexists. unfold iterate. erewrite bind_eq by (apply cull_eq, Hv).
  fold s. rewrite Hf. erewrite bind_eq by exact Eo.
  replace (numIndividuals (set_generation self s) -
           numAfterCulling (set_generation self s))%nat with 0%nat
    by (simpl; lia).
  cbn [replicateM]. unfold ret at 1. unfold bind at 1.
  match goal with
  | |- (if ?b then _ else _) _ = _ =>
      change b with (length (s ++ []) =? numIndividuals self)%nat
  end.
  rewrite app_nil_r.
  assert (E : (length s =? numIndividuals self)%nat = true)
    by (apply Nat.eqb_eq; lia).
  rewrite E. unfold ret. cbn [generation set_generation].
  rewrite app_nil_r. reflexivity.
Qed.

Lemma load_invalid w r : ~ valid_ref w r -> load r w = Raise AttributeError.
Proof.
  unfold valid_ref, load, deref. destruct r as [|a]; [reflexivity|].
  destruct (nth_error (store w) a); [|reflexivity].
  intro H. exfalso. apply H. discriminate.
Qed.

Lemma valid_ref_dec w r : valid_ref w r \/ ~ valid_ref w r.
Proof.
  unfold valid_ref. destruct (deref w r); [left; discriminate | right; auto].
Qed.

Lemma mapM_attr_invalid {B : Type} (h : Strategy -> B) g w :
  ~ Forall (valid_ref w) g ->
  mapM (fun r => bind (load r) (fun o => ret (h o))) g w =
  Raise AttributeError.
Proof.
  induction g as [|r g IH]; intro H.
  - exfalso. apply H. constructor.
  - cbn [mapM]. destruct (valid_ref_dec w r) as [Hr|Hr].
    + destruct (load_valid Hr) as (o & _ & Hl).
      assert (E1 : bind (load r) (fun o => ret (h o)) w = OK (h o, w))
        by (erewrite bind_eq by exact Hl; reflexivity).
      erewrite bind_eq by exact E1.
      unfold bind at 1. rewrite IH; [reflexivity|].
      intro Hg. apply H. constructor; assumption.
    + unfold bind at 1. unfold bind at 1.
      rewrite (load_invalid Hr). reflexivity.
Qed.

(** X7. A population that holds [None] cannot be iterated: the sort
    raises [AttributeError], and so does [optimize] in its first
    generation. *)
Theorem None_in_population_raises self w :
  In PyNone (generation self) ->
  iterate self w = Raise AttributeError /\
  ((0 < numIterations self)%nat -> optimize self w = Raise AttributeError).
Proof.
  intro HN.
  assert (Hnv : ~ Forall (valid_ref w) (generation self)).
  { intro Hv. rewrite Forall_forall in Hv. apply (Hv _ HN). reflexivity. }
  assert (Hi : forall g, iterate (set_numGeneration self g) w =
                         Raise AttributeError).
  { intro g. unfold iterate, cull, sort_by_fitness, bind.
    cbn [generation set_numGeneration].
    change (mapM fitness_of (generation self) w)
      with (mapM (fun r => bind (load r) (fun o => ret (fitness o)))
                 (generation self) w).
    rewrite (mapM_attr_invalid fitness Hnv). reflexivity. }
  split.
  - unfold iterate, cull, sort_by_fitness, bind.
    change (mapM fitness_of (generation self) w)
      with (mapM (fun r => bind (load r) (fun o => ret (fitness o)))
                 (generation self) w).
    rewrite (mapM_attr_invalid fitness Hnv). reflexivity.
  - intro Hn. unfold optimize.
    destruct (numIterations self) as [|n]; [lia|].
    cbn [seq for_generations]. unfold bind. rewrite Hi. reflexivity.
Qed.

(** X8. With [numAfterCulling = 0] no generation can be completed
    while individuals are to be produced: when the counter is a
    multiple of 100 the report raises [ValueError] on the empty
    population, and otherwise the first replacement produced by
    mutation raises [IndexError]. *)
Theorem no_survivors_raises self w :
  Forall (valid_ref w) (generation self) ->
  numAfterCulling self = 0%nat ->
  (numGeneration self mod 100 = 0%nat ->
   iterate self w = Raise ValueError) /\
  (numGeneration self mod 100 <> 0%nat ->
   (0 < numIndividuals self)%nat ->
   py_peek w < proportionGeneratedThroughMutation self ->
   iterate self w = Raise IndexError).
Proof.
  intros Hv HK.
  assert (Ec : cull self w = OK (set_generation self [], w)).
  { rewrite (cull_eq _ Hv), HK. reflexivity. }
  split.
  - intro Hn. unfold iterate. erewrite bind_eq by exact Ec.
    unfold outputInfo. cbn [numGeneration generation set_generation].
    rewrite Hn. reflexivity.
  - intros Hn HN Hr. unfold iterate. erewrite bind_eq by exact Ec.
    assert (Eo : outputInfo (set_generation self []) w = OK (tt, w)).
    { unfold outputInfo. cbn [numGeneration set_generation].
      apply Nat.eqb_neq in Hn. rewrite Hn.
      assert (Hn' : (numGeneration self mod 1000 =? 0)%nat = false).
      { apply Nat.eqb_neq. intro E. apply Nat.eqb_neq in Hn. apply Hn.
        apply Nat.Lcm0.mod_divide. apply Nat.Lcm0.mod_divide in E.
        apply Nat.divide_trans with 1000%nat; [exists 10%nat; reflexivity|].
        exact E. }
      rewrite Hn'. reflexivity. }
    erewrite bind_eq by exact Eo.
    cbn [numIndividuals numAfterCulling set_generation]. rewrite HK.
    rewrite Nat.sub_0_r.
    destruct (numIndividuals self) as [|n]; [lia|].
    cbn [replicateM]. unfold bind at 1. unfold bind at 1.
    rewrite (@getNewIndividual_then _ (set_generation self []) w Hr).
    reflexivity.
Qed.

(** X9. Off the multiples of 100 [outputInfo] shows nothing and
    cannot fail, whatever the population holds: it returns with the
    world as it was. *)
Theorem outputInfo_silent self w :
  numGeneration self mod 100 <> 0%nat ->
  outputInfo self w = OK (tt, w).
Proof.
  intro Hn. unfold outputInfo.
  assert (Hn' : (numGeneration self mod 1000 =? 0)%nat = false).
  { apply Nat.eqb_neq. intro E. apply Hn.
    apply Nat.Lcm0.mod_divide. apply Nat.Lcm0.mod_divide in E.
    apply Nat.divide_trans with 1000%nat; [exists 10%nat; reflexivity|].
    exact E. }
  apply Nat.eqb_neq in Hn. rewrite Hn, Hn'. reflexivity.
Qed.

End EdgeCases.

(** ** More on [Strategy], the factory and the driver *)

Section StrategyMore.

Context {ext : Collaborators}.

(** X10. For an existing parent, [mutate] raises [ValueError] exactly
    when the rate is outside [0, 1]. *)
Theorem mutate_rate_out_of_range self me p w :
  deref w self = Some me ->
  (mutate self p w = Raise ValueError <-> p < 0 \/ 1 < p).
Proof.
  intro Hme. split.
  - intro H. destruct (Qlt_le_dec p 0) as [H0|H0]; [left; exact H0|].
    destruct (Qlt_le_dec 1 p) as [H1|H1]; [right; exact H1|].
    rewrite (@mutate_eq _ self me p w Hme H0 H1) in H. discriminate H.
  - intro H. unfold mutate. erewrite bind_eq by (apply load_deref, Hme).
    unfold bind at 1. unfold np_random_binomial1.
    assert (E : Qltb p 0 || Qltb 1 p = true).
    { apply orb_true_iff. destruct H as [H|H]; [left|right];
        apply Qltb_lt, H. }
    rewrite E. reflexivity.
Qed.

(** X11. The child [mutate] returns has as many accelerations as its
    parent and the parent's traffic light; its simulation and fitness
    are those of its own vector. *)
Theorem mutate_child_shape self p w r w' :
  mutate self p w = OK (r, w') ->
  exists me child,
    deref w self = Some me /\
    deref w' r = Some child /\
    length (acceleration child) = length (acceleration me) /\
    trafficLight child = trafficLight me /\
    sim child = TrafficSim_run (acceleration child)
                               (maxTime (trafficLight me)) /\
    fitness child = totalPerformance (sim child) (trafficLight me).
Proof.
  intro H. apply mutate_OK in H. destruct H as (me & Hme & -> & ->).
  exists me, (mutate_child me p w). split; [exact Hme|].
  split; [apply (deref_fresh _ (np_skip _ (np_skip _ w)))|].
  split; [apply mutate_child_length|]. repeat split.
Qed.

(** X12. [mutate] adds one object to the store and takes twice the
    parent's length of draws from [numpy.random]; it leaves [random]
    and what was shown alone. *)
Theorem mutate_world_effects self p w r w' :
  mutate self p w = OK (r, w') ->
  exists me child,
    deref w self = Some me /\
    store w' = store w ++ [child] /\
    py_random w' = py_random w /\
    stdout w' = stdout w /\
    src (np_random w') = src (np_random w) /\
    pos (np_random w') =
      (pos (np_random w) + 2 * length (acceleration me))%nat.
Proof.
  intro H. apply mutate_OK in H. destruct H as (me & Hme & -> & ->).
  exists me, (mutate_child me p w). split; [exact Hme|].
  repeat split. simpl. lia.
Qed.

(** X13. With [0 <= MAX_ACC] the factory of [optimize(trafficLight)]
    always returns a new individual for that traffic light, with
    [NUM_STEPS] accelerations, each within [0, MAX_ACC]. *)
Theorem strategyFactory_bounds tl w :
  0 <= MAX_ACC ->
  exists o w',
    strategyFactory tl w = OK (PyRef (length (store w)), w') /\
    store w' = store w ++ [o] /\
    trafficLight o = tl /\
    length (acceleration o) = NUM_STEPS /\
    Forall (in_range 0 MAX_ACC) (acceleration o).
Proof.
  intro Hm.
  exists (Strategy_init
            (map (fun u => 0 + (MAX_ACC - 0) * u) (np_draws NUM_STEPS w)) tl).
  eexists. split.
  - unfold strategyFactory. erewrite bind_eq by apply uniform_eq.
    reflexivity.
  - split; [reflexivity|]. split; [reflexivity|]. split.
    + cbn [acceleration Strategy_init]. rewrite length_map.
      apply np_draws_length.
    + apply (factory_values_in_bounds Hm), np_draws_range.
Qed.

End StrategyMore.

(** X14. The driver replays its vector: asked once per observation it
    answers with the accelerations in order, whatever it is shown, and
    raises [StopIteration] if asked more often than there are
    accelerations. *)
Theorem drive_replays (acc : list Q) (observations : list (Q * Q * Q)) :
  drive (StrategyDriver_init acc) observations =
  if (length observations <=? length acc)%nat
  then inl (firstn (length observations) acc,
            {| remaining := skipn (length observations) acc |})
  else inr StopIteration.
Proof.
  unfold StrategyDriver_init. revert acc.
  induction observations as [|[[p v] t] obs IH]; intro acc; [reflexivity|].
  destruct acc as [|a acc]; [reflexivity|].
  cbn [drive act remaining length firstn skipn]. rewrite IH.
  change (S (length obs) <=? S (length acc))%nat
    with (length obs <=? length acc)%nat.
  destruct (length obs <=? length acc)%nat; reflexivity.
Qed.

(** ** Selection twice, and distinct individuals *)

Section SelectionMore.

Context {ext : Collaborators}.

Lemma sort_by_sorted_id {A : Type} (f : A -> Q) (l : list A) :
  StronglySorted (fun a b => f b <= f a) l -> sort_by f l = l.
Proof.
  induction 1 as [|x l Hl IH Hx]; [reflexivity|].
  change (sort_by f (x :: l)) with (insert_by f x (sort_by f l)).
  rewrite IH. destruct l as [|y l]; [reflexivity|].
  cbn [insert_by]. inversion Hx as [|? ? Hy _]; subst.
  assert (E : Qltb (f x) (f y) = false) by (apply Qltb_ge; exact Hy).
  rewrite E. reflexivity.
Qed.

Lemma sorted_app_l {A : Type} (R : A -> A -> Prop) (l1 l2 : list A) :
  StronglySorted R (l1 ++ l2) -> StronglySorted R l1.
Proof.
  induction l1 as [|x l1 IH]; intro H; [constructor|].
  simpl in H. inversion H as [|? ? Hs Hx]; subst.
  constructor; [apply IH, Hs|].
  apply Forall_app in Hx. apply Hx.
Qed.

Lemma firstn_sort_by_sorted {A : Type} (f : A -> Q) (k : nat) (l : list A) :
  StronglySorted (fun a b => f b <= f a) (firstn k (sort_by f l)).
Proof.
  apply sorted_app_l with (l2 := skipn k (sort_by f l)).
  rewrite firstn_skipn. apply sort_by_sorted.
Qed.

(** X15. Culling twice is culling once: the survivors are sorted and
    few enough, so a second selection returns them as they are. *)
Theorem cull_idempotent self w :
  Forall (valid_ref w) (generation self) ->
  exists culled,
    cull self w = OK (culled, w) /\ cull culled w = OK (culled, w).
Proof.
  intro Hv.
  set (elite := firstn (numAfterCulling self)
                       (sort_by (fitness_in w) (generation self))).
  exists (set_generation self elite). split; [apply cull_eq, Hv|].
  assert (Hve : Forall (valid_ref w) elite)
    by (apply Forall_firstn, Forall_sort_by, Hv).
  rewrite (@cull_eq _ (set_generation self elite) w Hve).
  cbn [generation numAfterCulling set_generation].
  rewrite (sort_by_sorted_id (fitness_in w))
    by apply firstn_sort_by_sorted.
  assert (E : firstn (numAfterCulling self) elite = elite).
  { apply firstn_all2. unfold elite. apply firstn_le_length. }
  rewrite E. reflexivity.
Qed.

Lemma addresses_app g1 g2 :
  addresses (g1 ++ g2) = addresses g1 ++ addresses g2.
Proof.
  induction g1 as [|[|a] g1 IH]; simpl; [reflexivity | exact IH |].
  rewrite IH. reflexivity.
Qed.

Lemma addresses_perm g1 g2 :
  Permutation g1 g2 -> Permutation (addresses g1) (addresses g2).
Proof.
  induction 1 as [|x l l' _ IH|x y l|l l' l'' _ IH1 _ IH2].
  - constructor.
  - destruct x; simpl; [exact IH | apply perm_skip, IH].
  - destruct x, y; simpl; try apply Permutation_refl. apply perm_swap.
  - apply perm_trans with (addresses l'); assumption.
Qed.

Lemma addresses_valid w g :
  Forall (valid_ref w) g ->
  Forall (fun a => (a < length (store w))%nat) (addresses g).
Proof.
  induction 1 as [|r g Hr _ IH]; [constructor|].
  destruct r as [|a]; simpl; [exact IH|]. constructor; [|exact IH].
  unfold valid_ref in Hr. simpl in Hr. apply nth_error_Some, Hr.
Qed.

Lemma getNewIndividual_OK self w x w' :
  getNewIndividual self w = OK (x, w') ->
  (x = PyNone /\ store w' = store w) \/
  (x = PyRef (length (store w)) /\ exists c, store w' = store w ++ [c]).
Proof.
  unfold getNewIndividual, random_random. intro H.
  apply bind_OK in H. destruct H as (r & w1 & H1 & H).
  rewrite py_draw_eq in H1. inversion H1; subst r w1. clear H1.
  destruct (Qltb _ _).
  - apply bind_OK in H. destruct H as (parent & w2 & Hc & H).
    assert (E2 : store w2 = store w).
    { apply (@respects_random_choice _ (fun v v' => store v' = store v))
        in Hc; [exact Hc | reflexivity | congruence | auto]. }
    apply mutate_OK in H. destruct H as (me & _ & -> & ->).
    right. rewrite E2. split; [reflexivity|]. eexists. simpl.
    rewrite E2. reflexivity.
  - inversion H; subst. left. auto.
Qed.

Lemma replenish_addresses self n :
  forall w l w',
    replicateM n (getNewIndividual self) w = OK (l, w') ->
    (length (store w) <= length (store w'))%nat /\
    Forall (fun a => (length (store w) <= a < length (store w'))%nat)
           (addresses l) /\
    NoDup (addresses l).
Proof.
  induction n as [|n IH]; intros w l w' H.
  - inversion H; subst. split; [lia|]. split; constructor.
  - cbn [replicateM] in H. apply bind_OK in H.
    destruct H as (x & w1 & H1 & H).
    apply bind_OK in H. destruct H as (l' & w2 & H2 & H).
    inversion H; subst l w2. clear H.
    destruct (IH _ _ _ H2) as (Hle & Hb & Hn).
    apply getNewIndividual_OK in H1.
    destruct H1 as [[-> E]|[-> [c E]]].
    + rewrite E in *. simpl. auto.
    + rewrite E, length_app in *. simpl in *.
      split; [lia|]. split.
      * constructor; [lia|]. revert Hb. apply Forall_impl. intros a Ha. lia.
      * constructor; [|exact Hn]. intro Hin.
        rewrite Forall_forall in Hb. specialize (Hb _ Hin). lia.
Qed.

Lemma In_addresses a g : In (PyRef a) g -> In a (addresses g).
Proof.
  induction g as [|[|b] g IH]; simpl; [tauto | |].
  - intros [H|H]; [discriminate H | apply IH, H].
  - intros [H|H]; [left; congruence | right; apply IH, H].
Qed.

Lemma NoDup_of_addresses w g :
  Forall (valid_ref w) g -> NoDup (addresses g) -> NoDup g.
Proof.
  induction 1 as [|r g Hr _ IH]; intro Hn; [constructor|].
  destruct r as [|a]; [exfalso; apply Hr; reflexivity|].
  simpl in Hn. inversion Hn as [|? ? Ha Hn']; subst.
  constructor; [|apply IH, Hn'].
  intro Hin. apply Ha, In_addresses, Hin.
Qed.

(** X16. Individuals are never shared between entries: if no two
    entries of a full population refer to the same object, no two
    entries refer to the same object after [iterate] ([None] entries,
    which are no objects, aside); with every replacement produced by
    mutation the entries of the population are pairwise distinct. *)
Theorem iterate_keeps_individuals_distinct self w :
  wf self w ->
  NoDup (addresses (generation self)) ->
  exists self' w',
    iterate self w = OK (self', w') /\
    NoDup (addresses (generation self')) /\
    (1 <= proportionGeneratedThroughMutation self ->
     NoDup (generation self')).
Proof.
  intros Hwf Hnd.
  destruct (iterate_post Hwf)
    as (best & logs & trace & w2 & _ & _ & _ & _ & _ & _ & Er & _ & _ & _
        & _ & _ & Ei).
  set (s := sort_by (fitness_in w) (generation self)) in *.
  set (elite := firstn (numAfterCulling self) s) in *.
  assert (Hd : NoDup (addresses (elite ++ map snd trace))).
  { rewrite addresses_app.
    destruct (replenish_addresses _ _ _ Er) as (_ & Hb & Hn).
    assert (Hp : Permutation (generation self)
                             (elite ++ skipn (numAfterCulling self) s)).
    { unfold elite. rewrite firstn_skipn. apply sort_by_perm. }
    assert (Hne : NoDup (addresses elite)).
    { apply addresses_perm in Hp. rewrite addresses_app in Hp.
      apply (Permutation_NoDup Hp) in Hnd.
      apply (NoDup_app_remove_r _ _ Hnd). }
    assert (Hve : Forall (fun a => (a < length (store w))%nat)
                         (addresses elite)).
    { apply addresses_valid. unfold elite.
      apply Forall_firstn, Forall_sort_by, (wf_refs Hwf). }
    apply NoDup_app; [exact Hne | exact Hn|].
    intros a Ha Ha'. rewrite Forall_forall in Hve, Hb.
    specialize (Hve _ Ha). specialize (Hb _ Ha'). lia. }
  eexists. eexists. split; [exact Ei|]. split; [exact Hd|].
  intro Hp. destruct (wf_step Hwf Hp) as (s1 & w1 & E1 & Hwf1 & _).
  rewrite Ei in E1. inversion E1 as [[Es Ew]].
  pose proof (wf_refs Hwf1) as Hv. rewrite <- Es in Hv.
  apply (NoDup_of_addresses Hv). exact Hd.
Qed.

End SelectionMore.

(** ** The threshold of survival *)

Section Threshold.

Context {ext : Collaborators}.

Lemma filter_perm_length {A : Type} (P : A -> bool) (l l' : list A) :
  Permutation l l' -> length (filter P l) = length (filter P l').
Proof.
  induction 1 as [|x l l' _ IH|x y l|l l' l'' _ IH1 _ IH2]; simpl.
  - reflexivity.
  - destruct (P x); simpl; congruence.
  - destruct (P x), (P y); reflexivity.
  - congruence.
Qed.

Lemma filter_none {A : Type} (P : A -> bool) (l : list A) :
  Forall (fun x => P x = false) l -> filter P l = [].
Proof.
  induction 1 as [|x l Hx _ IH]; [reflexivity|].
  simpl. rewrite Hx. exact IH.
Qed.

(** In a list sorted best first, the entries that reach a level come
    before all the others. *)
Lemma sorted_reaching_first {A : Type} (f : A -> Q) (m : Q) (s : list A) :
  StronglySorted (fun a b => f b <= f a) s ->
  exists rest, s = filter (fun y => Qle_bool m (f y)) s ++ rest.
Proof.
  induction 1 as [|x s Hs IH Hx].
  - exists []. reflexivity.
  - cbn [filter]. destruct (Qle_bool m (f x)) eqn:E.
    + destruct IH as (rest & IH). exists rest. simpl. f_equal. exact IH.
    + exists (x :: s). rewrite filter_none; [reflexivity|].
      apply Qle_bool_false in E. revert Hx. apply Forall_impl.
      intros y Hy. destruct (Qle_bool m (f y)) eqn:Ey; [|reflexivity].
      apply Qle_bool_iff in Ey. lra.
Qed.

Lemma top_k_threshold {A : Type} (f : A -> Q) (m : Q) (k : nat)
      (l : list A) :
  (k <= length (filter (fun y => Qle_bool m (f y)) l))%nat ->
  Forall (fun x => m <= f x) (firstn k (sort_by f l)).
Proof.
  intro Hk. set (P := fun y => Qle_bool m (f y)) in *.
  rewrite (filter_perm_length P (sort_by_perm f l)) in Hk.
  destruct (sorted_reaching_first f m (sort_by_sorted f l)) as (rest & E).
  fold P in E. rewrite E. rewrite firstn_app.
  replace (k - length (filter P (sort_by f l)))%nat with 0%nat by lia.
  rewrite firstn_0, app_nil_r.
  apply Forall_firstn, Forall_forall. intros x Hx.
  apply filter_In in Hx. destruct Hx as [_ Hx].
  apply Qle_bool_iff, Hx.
Qed.

Lemma filter_all {A : Type} (P : A -> bool) (l : list A) :
  Forall (fun x => P x = true) l -> filter P l = l.
Proof.
  induction 1 as [|x l Hx _ IH]; [reflexivity|].
  simpl. rewrite Hx, IH. reflexivity.
Qed.

Lemma cull_inv self w culled w' :
  cull self w = OK (culled, w') ->
  w' = w /\
  culled = set_generation self
             (firstn (numAfterCulling self)
                     (sort_by (fitness_in w) (generation self))).
Proof.
  intro H.
  assert (Hv : Forall (valid_ref w) (generation self)).
  { unfold cull, sort_by_fitness in H.
    apply bind_OK in H. destruct H as (s & w1 & H1 & _).
    apply bind_OK in H1. destruct H1 as (ks & w2 & H1 & _).
    apply (mapM_attr_OK fitness) in H1. apply H1. }
  rewrite (cull_eq _ Hv) in H. inversion H. auto.
Qed.

(** X17. The threshold of survival never falls: after [iterate],
    every survivor of the next selection is at least as fit as the
    least fit survivor of this one. *)
Theorem worst_survivor_never_gets_worse self w :
  wf self w ->
  exists elite self1 w1,
    cull self w = OK (set_generation self elite, w) /\
    iterate self w = OK (self1, w1) /\
    forall m culled1 w2,
      (forall e, In e elite -> m <= fitness_in w e) ->
      cull self1 w1 = OK (culled1, w2) ->
      forall e1, In e1 (generation culled1) -> m <= fitness_in w1 e1.
Proof.
  intro Hwf.
  destruct (iterate_post Hwf)
    as (best & logs & trace & w2 & Ec & Hlen & _ & _ & _ & _ & _ & _ & _
        & _ & Gr & _ & Ei).
  set (elite := firstn (numAfterCulling self)
                       (sort_by (fitness_in w) (generation self))) in *.
  set (w1 := say _ w2) in *.
  eexists. eexists. exists w1. split; [exact Ec|]. split; [exact Ei|].
  intros m culled1 w3 Hm Hc e1 He1.
  apply cull_inv in Hc. destruct Hc as [-> ->].
  cbn [generation numAfterCulling set_generation] in He1.
  assert (Hve : Forall (valid_ref w) elite)
    by (apply Forall_firstn, Forall_sort_by, (wf_refs Hwf)).
  assert (Hall : Forall (fun x => Qle_bool m (fitness_in w1 x) = true) elite).
  { apply Forall_forall. intros e He. apply Qle_bool_iff.
    rewrite Forall_forall in Hve.
    rewrite (@fitness_in_grows _ w w1 e Gr (Hve e He)). apply Hm, He. }
  assert (Hk : (numAfterCulling self <=
                length (filter (fun y => Qle_bool m (fitness_in w1 y))
                               (elite ++ map snd trace)))%nat).
  { rewrite filter_app, length_app, (filter_all _ Hall), Hlen. lia. }
  pose proof (@top_k_threshold _ (fitness_in w1) m _ _ Hk) as Ht.
  rewrite Forall_forall in Ht. apply Ht, He1.
Qed.

End Threshold.

(** ** The further properties on the small population *)

Lemma individuals_never_change_witness :
  exists self' w',
    @iterate toy (toy_optimizer 4 2 1 0 toy_refs) (toy_world toy_objects) =
      OK (self', w') /\
    deref w' (PyRef 0) = Some (toy_strategy [1; 1]).
Proof.
  destruct (@iterate toy (toy_optimizer 4 2 1 0 toy_refs)
                     (toy_world toy_objects)) as [[self' w']|e] eqn:E;
    [|vm_compute in E; discriminate E].
  exists self', w'. split; [reflexivity|].
  apply (@individuals_never_change toy _ _ _ _ (or_introl E)).
  reflexivity.
Defined.

Lemma optimize_trafficLight_well_shaped_witness :
  @MIN_ACC toy <= 0 /\ 0 <= @MAX_ACC toy /\
  Forall (@well_shaped toy) (store (toy_world [])) /\
  exists self' w',
    @optimize_trafficLight toy tt (toy_world []) = OK (self', w') /\
    Forall (@well_shaped toy) (store w').
Proof.
  assert (Hlo : @MIN_ACC toy <= 0) by discriminate.
  assert (Hhi : 0 <= @MAX_ACC toy) by discriminate.
  assert (Hw : Forall (@well_shaped toy) (store (toy_world [])))
    by constructor.
  split; [exact Hlo|]. split; [exact Hhi|]. split; [exact Hw|].
  destruct (@optimize_trafficLight_run toy tt (toy_world []))
    as (self' & w' & E & _).
  exists self', w'. split; [exact E|].
  apply (@optimize_trafficLight_well_shaped toy tt (toy_world []) self' w'
           Hlo Hhi Hw E).
Defined.

Lemma optimize_trafficLight_on_return_witness :
  exists self' w',
    @optimize_trafficLight toy tt (toy_world []) = OK (self', w') /\
    length (generation self') = 100%nat.
Proof.
  destruct (@optimize_trafficLight_run toy tt (toy_world []))
    as (self' & w' & E & _).
  exists self', w'. split; [exact E|].
  apply (@optimize_trafficLight_on_return toy tt (toy_world []) self' w' E).
Defined.


(** A population of four where three are wanted is cut back. *)
Lemma iterate_size_check_witness :
  Forall (@valid_ref toy (toy_world toy_objects)) toy_refs /\
  exists self' w',
    @iterate toy (toy_optimizer 3 2 1 0 toy_refs) (toy_world toy_objects) =
      OK (self', w') /\
    length (generation self') = 3%nat.
Proof.
  split; [apply toy_refs_valid|].
  assert (Hg : generation (toy_optimizer 3 2 1 0 toy_refs) <> [])
    by discriminate.
  assert (Hk : (0 < numAfterCulling (toy_optimizer 3 2 1 0 toy_refs))%nat)
    by repeat constructor.
  assert (H0 : 0 <= mutationParameter (toy_optimizer 3 2 1 0 toy_refs))
    by discriminate.
  assert (H1 : mutationParameter (toy_optimizer 3 2 1 0 toy_refs) <= 1)
    by discriminate.
  destruct (@iterate_size_check toy (toy_optimizer 3 2 1 0 toy_refs)
              (toy_world toy_objects) toy_refs_valid Hg Hk H0 H1)
    as [Hok _].
  apply Hok. reflexivity.
Defined.

Lemma iterate_without_room_only_sorts_witness :
  Forall (@valid_ref toy (toy_world toy_objects)) toy_refs /\
  exists evs,
    @iterate toy (toy_optimizer 4 5 1 0 toy_refs) (toy_world toy_objects) =
    OK (set_generation (toy_optimizer 4 5 1 0 toy_refs)
          [PyRef 1; PyRef 3; PyRef 0; PyRef 2],
        say evs (toy_world toy_objects)).
Proof.
  split; [apply toy_refs_valid|].
  assert (Hg : generation (toy_optimizer 4 5 1 0 toy_refs) <> [])
    by discriminate.
  assert (HK : (numIndividuals (toy_optimizer 4 5 1 0 toy_refs) <=
                numAfterCulling (toy_optimizer 4 5 1 0 toy_refs))%nat)
    by repeat constructor.
  destruct (@iterate_without_room_only_sorts toy
              (toy_optimizer 4 5 1 0 toy_refs) (toy_world toy_objects)
              toy_refs_valid Hg eq_refl HK) as (evs & E).
  exists evs. exact E.
Defined.

Lemma None_in_population_raises_witness :
  In PyNone [PyRef 0; PyNone; PyRef 2; PyRef 3] /\
  @iterate toy (toy_optimizer 4 2 1 0 [PyRef 0; PyNone; PyRef 2; PyRef 3])
           (toy_world toy_objects) = Raise AttributeError.
Proof.
  assert (H : In PyNone
                (generation
                   (toy_optimizer 4 2 1 0
                      [PyRef 0; PyNone; PyRef 2; PyRef 3])))
    by (right; left; reflexivity).
  split; [exact H|].
  destruct (@None_in_population_raises toy _ (toy_world toy_objects) H)
    as [Hi _].
  exact Hi.
Defined.

Lemma no_survivors_raises_witness :
  Forall (@valid_ref toy (toy_world toy_objects)) toy_refs /\
  @iterate toy (toy_optimizer 4 0 1 0 toy_refs) (toy_world toy_objects) =
    Raise ValueError /\
  @iterate toy (toy_optimizer 4 0 1 1 toy_refs) (toy_world toy_objects) =
    Raise IndexError.
Proof.
  split; [apply toy_refs_valid|]. split.
  - destruct (@no_survivors_raises toy (toy_optimizer 4 0 1 0 toy_refs)
                (toy_world toy_objects) toy_refs_valid eq_refl) as [H _].
    apply H. reflexivity.
  - destruct (@no_survivors_raises toy (toy_optimizer 4 0 1 1 toy_refs)
                (toy_world toy_objects) toy_refs_valid eq_refl) as [_ H].
    apply H; [discriminate | repeat constructor | reflexivity].
Defined.

Lemma outputInfo_silent_witness :
  numGeneration (toy_optimizer 4 2 1 7 [PyNone]) mod 100 <> 0%nat /\
  @outputInfo toy (toy_optimizer 4 2 1 7 [PyNone]) (toy_world toy_objects) =
    OK (tt, toy_world toy_objects).
Proof.
  assert (H : numGeneration (toy_optimizer 4 2 1 7 [PyNone]) mod 100
              <> 0%nat) by discriminate.
  split; [exact H|].
  apply (@outputInfo_silent toy _ (toy_world toy_objects) H).
Defined.

Lemma mutate_rate_out_of_range_witness :
  @deref toy (toy_world toy_objects) (PyRef 0) = Some (toy_strategy [1; 1]) /\
  @mutate toy (PyRef 0) (3 # 2) (toy_world toy_objects) = Raise ValueError.
Proof.
  split; [reflexivity|].
  apply (@mutate_rate_out_of_range toy (PyRef 0) (toy_strategy [1; 1])
           (3 # 2) (toy_world toy_objects) eq_refl).
  right. reflexivity.
Defined.

Lemma mutate_child_shape_witness :
  exists r w' child,
    @mutate toy (PyRef 3) (9 # 10) (toy_world toy_objects) = OK (r, w') /\
    deref w' r = Some child /\
    length (acceleration child) = 2%nat.
Proof.
  destruct (@mutate toy (PyRef 3) (9 # 10) (toy_world toy_objects))
    as [[r w']|e] eqn:E; [|discriminate E].
  destruct (@mutate_child_shape toy _ _ _ _ _ E)
    as (me & child & Hme & Hc & Hl & _).
  exists r, w', child. split; [reflexivity|]. split; [exact Hc|].
  rewrite Hl. inversion Hme. reflexivity.
Defined.

Lemma mutate_world_effects_witness :
  exists r w',
    @mutate toy (PyRef 3) (9 # 10) (toy_world toy_objects) = OK (r, w') /\
    py_random w' = toy_prng /\ stdout w' = [] /\
    pos (np_random w') = 4%nat.
Proof.
  destruct (@mutate toy (PyRef 3) (9 # 10) (toy_world toy_objects))
    as [[r w']|e] eqn:E; [|discriminate E].
  destruct (@mutate_world_effects toy _ _ _ _ _ E)
    as (me & child & Hme & _ & Hp & Ho & _ & Hn).
  exists r, w'. split; [reflexivity|]. split; [exact Hp|].
  split; [exact Ho|]. rewrite Hn. inversion Hme. reflexivity.
Defined.

Lemma strategyFactory_bounds_witness :
  0 <= @MAX_ACC toy /\
  exists o w',
    @strategyFactory toy tt (toy_world []) = OK (PyRef 0, w') /\
    store w' = [o] /\ length (acceleration o) = 3%nat.
Proof.
  assert (H : 0 <= @MAX_ACC toy) by discriminate.
  split; [exact H|].
  destruct (@strategyFactory_bounds toy tt (toy_world []) H)
    as (o & w' & E & Es & _ & El & _).
  exists o, w'. split; [exact E|]. split; [exact Es | exact El].
Defined.

Lemma cull_idempotent_witness :
  Forall (@valid_ref toy (toy_world toy_objects)) toy_refs /\
  exists culled,
    @cull toy (toy_optimizer 4 2 1 0 toy_refs) (toy_world toy_objects) =
      OK (culled, toy_world toy_objects) /\
    @cull toy culled (toy_world toy_objects) =
      OK (culled, toy_world toy_objects).
Proof.
  split; [apply toy_refs_valid|].
  apply (@cull_idempotent toy (toy_optimizer 4 2 1 0 toy_refs)
           (toy_world toy_objects) toy_refs_valid).
Defined.

Lemma iterate_keeps_individuals_distinct_witness :
  @wf toy (toy_optimizer 4 2 1 0 toy_refs) (toy_world toy_objects) /\
  NoDup (addresses toy_refs) /\
  exists self' w',
    @iterate toy (toy_optimizer 4 2 1 0 toy_refs) (toy_world toy_objects) =
      OK (self', w') /\
    NoDup (addresses (generation self')).
Proof.
  assert (Hn : NoDup (addresses
                        (generation (toy_optimizer 4 2 1 0 toy_refs)))).
  { simpl. repeat constructor; simpl; intuition discriminate. }
  split; [apply toy_population_wf|]. split; [exact Hn|].
  destruct (@iterate_keeps_individuals_distinct toy _ _
              (toy_population_wf 1 0) Hn) as (self' & w' & E & Hd & _).
  exists self', w'. split; [exact E | exact Hd].
Defined.

Lemma worst_survivor_never_gets_worse_witness :
  @wf toy (toy_optimizer 4 2 1 0 toy_refs) (toy_world toy_objects) /\
  exists elite self1 w1,
    @cull toy (toy_optimizer 4 2 1 0 toy_refs) (toy_world toy_objects) =
      OK (set_generation (toy_optimizer 4 2 1 0 toy_refs) elite,
          toy_world toy_objects) /\
    @iterate toy (toy_optimizer 4 2 1 0 toy_refs) (toy_world toy_objects) =
      OK (self1, w1).
Proof.
  split; [apply toy_population_wf|].
  destruct (@worst_survivor_never_gets_worse toy _ _ (toy_population_wf 1 0))
    as (elite & self1 & w1 & Ec & Ei & _).
  exists elite, self1, w1. split; [exact Ec | exact Ei].
Defined.
